(** * A one-dimensional lattice Boltzmann solver (D1Q3)

    Shallow embedding of [LatticeBoltzmannSolver] from [1d_lbm.py].

    The solver object is a record; its methods are computations in a small
    state-and-exception monad over that record, so that in-place updates of
    [self.f], reassignments of [self.rho] / [self.u] and a raised
    [IndexError] are all explicit.  NumPy's [float64] is abstracted by the
    class [Scalar], instantiated twice: by the real numbers (the arithmetic
    the method is designed in) and by IEEE-754 binary64 (the arithmetic the
    program runs in, where a division by zero yields an infinity or a NaN). *)

From Stdlib Require Import ZArith Reals Lra Lia Floats.
From stdpp Require Import base option list.

(** ** Scalars: what the program needs from [float64] *)

Class Scalar (T : Type) : Type := {
  of_int : Z → T;       (* an integer literal or [np.int64] used as a float *)
  sadd : T → T → T;
  ssub : T → T → T;
  smul : T → T → T;
  sdiv : T → T → T;
  sexp : T → T;         (* [np.exp] at one element *)
}.

Declare Scope sc_scope.
Delimit Scope sc_scope with sc.
Infix "+" := sadd : sc_scope.
Infix "-" := ssub : sc_scope.
Infix "*" := smul : sc_scope.
Infix "/" := sdiv : sc_scope.

(** [x ** 2] on a float array is [np.square]: one multiplication. *)
Definition ssq `{Scalar T} (x : T) : T := (x * x)%sc.

(** ** One-dimensional arrays and their element-wise arithmetic

    An array of shape [(n,)] is a list of length [n]; a matrix of shape
    [(3, n)] is a list of three rows.  Arrays that meet in an element-wise
    operation have the same shape in every state the class builds (see
    [wf] below), so the operation is the point-wise one. *)

Declare Scope arr_scope.
Delimit Scope arr_scope with arr.

Section Arrays.
Context `{Scalar T}.

Definition zeros (n : nat) : list T := replicate n (of_int 0).
Definition ones (n : nat) : list T := replicate n (of_int 1).
(** [np.zeros((m, n))] *)
Definition zeros2 (m n : nat) : list (list T) := replicate m (zeros n).

Definition aadd : list T → list T → list T := zip_with sadd.
Definition asub : list T → list T → list T := zip_with ssub.
Definition amul : list T → list T → list T := zip_with smul.
Definition adiv : list T → list T → list T := zip_with sdiv.
(** scalar on the left, array on the right *)
Definition sa_add (x : T) (a : list T) : list T := sadd x <$> a.
Definition sa_mul (x : T) (a : list T) : list T := smul x <$> a.
(** array on the left, scalar on the right *)
Definition as_add (a : list T) (x : T) : list T := (λ y, sadd y x) <$> a.
Definition asq (a : list T) : list T := ssq <$> a.
Definition aexp (a : list T) : list T := sexp <$> a.

(** [np.sum(m, axis=0)]: the reduction starts from the identity of the
    addition, an array of [0.0] as long as a row, and adds the rows to it one
    after the other; [n] is the row length, needed when there is no row. *)
Definition sum_axis0 (n : nat) (m : list (list T)) : list T :=
  foldl aadd (zeros (match m with [] => n | r :: _ => length r end)) m.
End Arrays.

Infix "+" := aadd : arr_scope.
Infix "-" := asub : arr_scope.
Infix "*" := amul : arr_scope.
Infix "/" := adiv : arr_scope.
Notation "x +^ a" := (sa_add x a) (at level 50, left associativity) : arr_scope.
Notation "x *^ a" := (sa_mul x a) (at level 40, left associativity) : arr_scope.
Notation "a ^+ x" := (as_add a x) (at level 50, left associativity) : arr_scope.

(** [range(lo, hi)] for a non-negative [lo]: [lo, lo+1, ..., hi-1]. *)
Definition range (lo : nat) (hi : Z) : list nat :=
  seq lo (Z.to_nat (hi - Z.of_nat lo)).

(** [range(start, -1, -1)]: [start, start-1, ..., 0], empty when [start < 0]. *)
Definition range_down (start : Z) : list nat :=
  rev (seq 0 (Z.to_nat (start + 1))).

(** ** The solver object *)

Record solver (T : Type) : Type := Solver {
  nx : nat;                 (* number of lattice sites *)
  nt : Z;                   (* number of time steps *)
  omega : T;                (* relaxation parameter *)
  dx : T;
  dt : T;
  f : list (list T);        (* distribution functions, shape (3, nx) *)
  rho : list T;             (* density *)
  u : list T;               (* velocity *)
  epsilon : list T;         (* binding energy *)
  c : list Z;               (* velocity vectors *)
  w : list T;               (* weights *)
}.
Arguments Solver {T}.
Arguments nx {T}. Arguments nt {T}. Arguments omega {T}. Arguments dx {T}.
Arguments dt {T}. Arguments f {T}. Arguments rho {T}. Arguments u {T}.
Arguments epsilon {T}. Arguments c {T}. Arguments w {T}.

Section Solver.
Context `{Scalar T}.
Local Open Scope sc_scope.

Definition with_f (m : list (list T)) (s : solver T) : solver T :=
  Solver (nx s) (nt s) (omega s) (dx s) (dt s) m (rho s) (u s) (epsilon s) (c s) (w s).
Definition with_rho (a : list T) (s : solver T) : solver T :=
  Solver (nx s) (nt s) (omega s) (dx s) (dt s) (f s) a (u s) (epsilon s) (c s) (w s).
Definition with_u (a : list T) (s : solver T) : solver T :=
  Solver (nx s) (nt s) (omega s) (dx s) (dt s) (f s) (rho s) a (epsilon s) (c s) (w s).
Definition with_epsilon (a : list T) (s : solver T) : solver T :=
  Solver (nx s) (nt s) (omega s) (dx s) (dt s) (f s) (rho s) (u s) a (c s) (w s).

(** *** The method monad: a state transformer that may raise

    [None] is a raised exception (the only one these methods can raise is
    the [IndexError] of an out-of-range subscript). *)
Definition M (A : Type) : Type := solver T → option (A * solver T).

#[export] Instance M_ret : MRet M := λ A a s, Some (a, s).
#[export] Instance M_bind : MBind M := λ A B k m s,
  match m s with
  | Some (a, s') => k a s'
  | None => None
  end.

(** read an attribute of [self] *)
Definition gets {A} (p : solver T → A) : M A := λ s, Some (p s, s).
(** assign an attribute of [self] *)
Definition modify (g : solver T → solver T) : M unit := λ s, Some (tt, g s).
(** [a[i]]: raises when [i] is out of range *)
Definition index {A} (a : list A) (i : nat) : M A :=
  λ s, match a !! i with Some x => Some (x, s) | None => None end.
(** [a[i] = x] on a local copy: raises when [i] is out of range *)
Definition store {A} (a : list A) (i : nat) (x : A) : M (list A) :=
  λ s, match a !! i with Some _ => Some (<[i := x]> a, s) | None => None end.

(** [for x in l: body(x)] with the loop-carried local variables in [acc] *)
Fixpoint for_fold {A B} (l : list A) (acc : B) (body : A → B → M B) : M B :=
  match l with
  | [] => mret acc
  | x :: l' => acc' ← body x acc; for_fold l' acc' body
  end.
(** [for x in l: body(x)] *)
Fixpoint for_each {A} (l : list A) (body : A → M unit) : M unit :=
  match l with
  | [] => mret tt
  | x :: l' => body x;; for_each l' body
  end.

(** *** [__init__] *)
Definition __init__ (nx : nat) (nt : Z) (omega dx dt : T) : solver T :=
  {| nx := nx; nt := nt; omega := omega; dx := dx; dt := dt;
     f := zeros2 3 nx;
     rho := ones nx;
     u := zeros nx;
     epsilon := zeros nx;
     c := [0; 1; -1]%Z;
     w := [of_int 1 / of_int 3; of_int 1 / of_int 6; of_int 1 / of_int 6] |}.

(** the constructor with its default [dx=1.0, dt=1.0] *)
Definition new (nx : nat) (nt : Z) (omega : T) : solver T :=
  __init__ nx nt omega (of_int 1) (of_int 1).

(** *** [equilibrium_distribution] *)
Definition equilibrium_distribution : M (list (list T)) :=
  n ← gets nx;
  let u_eq := zeros2 3 n in
  let f_eq := zeros2 3 n in
  '(_, f_eq) ← for_fold (range 0 3) (u_eq, f_eq) (λ i '(u_eq, f_eq),
    us ← gets u;
    cs ← gets c;
    ci ← index cs i;
    u_eq ← store u_eq i (us ^+ of_int ci)%arr;
    ws ← gets w;
    wi ← index ws i;
    rs ← gets rho;
    u_eq_i ← index u_eq i;
    es ← gets epsilon;
    f_eq ← store f_eq i
      (wi *^ rs
       * (of_int 1 +^ of_int 3 *^ u_eq_i
          + (of_int 9 / of_int 2)%sc *^ asq u_eq_i
          - (of_int 3 / of_int 2)%sc *^ asq us)
       * aexp es)%arr;
    mret (u_eq, f_eq));
  mret f_eq.

(** *** [collision] *)
Definition collision : M unit :=
  f_eq ← equilibrium_distribution;
  for_each (range 0 3) (λ i,
    om ← gets omega;
    fs ← gets f;
    f_i ← index fs i;
    f_eq_i ← index f_eq i;
    fs' ← store fs i ((of_int 1 - om)%sc *^ f_i + om *^ f_eq_i)%arr;
    modify (with_f fs')).

(** [self.f[d, i]] *)
Definition f_get (d i : nat) : M T :=
  fs ← gets f;
  row ← index fs d;
  index row i.
(** [self.f[d, i] = x], in place *)
Definition f_set (d i : nat) (x : T) : M unit :=
  fs ← gets f;
  row ← index fs d;
  row' ← store row i x;
  fs' ← store fs d row';
  modify (with_f fs').

(** *** [streaming] *)
Definition streaming : M unit :=
  n ← gets nx;
  for_each (range 1 (Z.of_nat n)) (λ i,
    x ← f_get 1 (i - 1); f_set 1 i x);;
  for_each (range_down (Z.of_nat n - 2)) (λ i,
    x ← f_get 2 (i + 1); f_set 2 i x).

(** *** [update_density_velocity] *)
Definition update_density_velocity : M unit :=
  n ← gets nx;
  fs ← gets f;
  modify (with_rho (sum_axis0 n fs));;
  fs ← gets f;
  f1 ← index fs 1;
  f2 ← index fs 2;
  rs ← gets rho;
  modify (with_u ((f1 - f2) / rs)%arr).

(** *** [set_epsilon] *)
Definition set_epsilon (e : list T) : M unit := modify (with_epsilon e).

(** *** [evolve] *)
Definition evolve : M unit :=
  k ← gets nt;
  for_each (range 0 k) (λ _,
    collision;;
    streaming;;
    update_density_velocity).

(** The shape discipline of the class: what [__init__] establishes and
    every method keeps. *)
Definition wf (s : solver T) : Prop :=
  length (f s) = 3
  ∧ Forall (λ row, length row = nx s) (f s)
  ∧ length (rho s) = nx s
  ∧ length (u s) = nx s
  ∧ length (epsilon s) = nx s
  ∧ c s = [0; 1; -1]%Z
  ∧ w s = [of_int 1 / of_int 3; of_int 1 / of_int 6; of_int 1 / of_int 6].
End Solver.

(** ** The two scalar models *)

(** Real numbers: exact arithmetic. *)
#[export] Instance R_scalar : Scalar R := {|
  of_int := IZR;
  sadd := Rplus;
  ssub := Rminus;
  smul := Rmult;
  sdiv := Rdiv;
  sexp := exp;
|}.

(** An integer as a binary64 number (exact for the small literals used). *)
Definition float_of_int (z : Z) : float :=
  match z with
  | Z0 => 0%float
  | Zpos _ => of_uint63 (Uint63.of_Z z)
  | Zneg p => (- of_uint63 (Uint63.of_Z (Zpos p)))%float
  end.

(** IEEE-754 binary64 with round-to-nearest-even, as the hardware computes
    [+ - * /].  [np.exp] is a library routine; it is a parameter here. *)
Definition float_scalar (np_exp : float → float) : Scalar float := {|
  of_int := float_of_int;
  sadd := PrimFloat.add;
  ssub := PrimFloat.sub;
  smul := PrimFloat.mul;
  sdiv := PrimFloat.div;
  sexp := np_exp;
|}.

(** ** Observations *)

(** [m[d, i]] when both subscripts are in range *)
Definition at2 {T} (m : list (list T)) (d i : nat) : option T :=
  row ← m !! d; row !! i.

(** ** Closed forms of the loops (used to state what the methods compute) *)

(** a row overwritten with its first element *)
Definition flood_first {T} (row : list T) : list T :=
  match row with
  | [] => []
  | x :: _ => replicate (length row) x
  end.

(** a row overwritten with its last element *)
Definition flood_last {T} (row : list T) : list T :=
  match last row with
  | None => []
  | Some x => replicate (length row) x
  end.

Section ClosedForms.
Context `{Scalar T}.
Local Open Scope sc_scope.

(** the right-hand side assigned to [f_eq[i, :]], for weight [wi] and
    lattice velocity [ci] *)
Definition f_eq_row (s : solver T) (wi : T) (ci : Z) : list T :=
  let u_eq_i := (u s ^+ of_int ci)%arr in
  (wi *^ rho s
   * (of_int 1 +^ of_int 3 *^ u_eq_i
      + (of_int 9 / of_int 2)%sc *^ asq u_eq_i
      - (of_int 3 / of_int 2)%sc *^ asq (u s))
   * aexp (epsilon s))%arr.

Definition f_eq_mat (s : solver T) : list (list T) :=
  [f_eq_row s (of_int 1 / of_int 3) 0;
   f_eq_row s (of_int 1 / of_int 6) 1;
   f_eq_row s (of_int 1 / of_int 6) (-1)].

(** the right-hand side assigned to [self.f[i, :]] by [collision] *)
Definition relax (om : T) (f_i f_eq_i : list T) : list T :=
  ((of_int 1 - om)%sc *^ f_i + om *^ f_eq_i)%arr.

(** the value of [f_eq[d, i]] as a scalar expression *)
Definition f_eq_at (wd : T) (cd : Z) (r v e : T) : T :=
  let ue := v + of_int cd in
  wd * r
  * (of_int 1 + of_int 3 * ue + (of_int 9 / of_int 2) * ssq ue
     - (of_int 3 / of_int 2) * ssq v)
  * sexp e.
End ClosedForms.

Section StepForm.
Context `{Scalar T}.
Local Open Scope sc_scope.

(** one iteration of the loop of [evolve] *)
Definition step : M unit :=
  collision;;
  streaming;;
  update_density_velocity.

(** the three rows of [self.f] after one iteration *)
Definition step_f (s : solver T) : list (list T) :=
  match f s with
  | [r0; r1; r2] =>
      [relax (omega s) r0 (f_eq_row s (of_int 1 / of_int 3) 0);
       flood_first (relax (omega s) r1 (f_eq_row s (of_int 1 / of_int 6) 1));
       flood_last (relax (omega s) r2 (f_eq_row s (of_int 1 / of_int 6) (-1)))]
  | m => m
  end.

(** [self.rho] and [self.u] as [update_density_velocity] assigns them *)
Definition macro_rho (m : list (list T)) : list T :=
  match m with
  | [r0; r1; r2] => (zeros (length r0) + r0 + r1 + r2)%arr
  | _ => []
  end.
Definition macro_u (m : list (list T)) : list T :=
  match m with
  | [r0; r1; r2] => ((r1 - r2) / (zeros (length r0) + r0 + r1 + r2))%arr
  | _ => []
  end.

(** the state after one iteration *)
Definition step_state (s : solver T) : solver T :=
  with_u (macro_u (step_f s)) (with_rho (macro_rho (step_f s)) (with_f (step_f s) s)).
End StepForm.

(** ** Specification-side notions *)

Section SpecSide.
Context `{Scalar T}.
Local Open Scope sc_scope.

(** The spec's Evolution Driver, word for word: [k] iterations, each one
    Collision, then Streaming, then Macroscopic Update. *)
Fixpoint steps (k : nat) : M unit :=
  match k with
  | O => mret tt
  | S k' => collision;; streaming;; update_density_velocity;; steps k'
  end.

(** The spec's data-model invariant on the macroscopic fields: at every
    site, [rho[i] = f[0,i] + f[1,i] + f[2,i]] and
    [u[i] = (f[1,i] - f[2,i]) / rho[i]]. *)
Definition macro_consistent (s : solver T) : Prop :=
  ∀ i, i < nx s →
    ∃ x0 x1 x2 r v,
      at2 (f s) 0 i = Some x0 ∧ at2 (f s) 1 i = Some x1 ∧ at2 (f s) 2 i = Some x2
      ∧ rho s !! i = Some r ∧ u s !! i = Some v
      ∧ r = x0 + x1 + x2 ∧ v = (x1 - x2) / r.

(** The same relation with the sum as [np.sum] builds it, from [0.0]. *)
Definition macro_computed (s : solver T) : Prop :=
  ∀ i, i < nx s →
    ∃ x0 x1 x2 r v,
      at2 (f s) 0 i = Some x0 ∧ at2 (f s) 1 i = Some x1 ∧ at2 (f s) 2 i = Some x2
      ∧ rho s !! i = Some r ∧ u s !! i = Some v
      ∧ r = of_int 0 + x0 + x1 + x2 ∧ v = (x1 - x2) / r.
End SpecSide.

Section Iterate.
Context `{Scalar T}.

(** the state after [k] iterations *)
Fixpoint run_steps (k : nat) (s : solver T) : solver T :=
  match k with
  | O => s
  | S k' => run_steps k' (step_state s)
  end.
End Iterate.

(** A solver over the reals whose density, velocity and binding energy are
    the same at every site ([r], [v] and [0]) and that relaxes fully
    ([omega = 1]). *)
Definition uniform (r v : R) (s : solver R) : Prop :=
  wf s
  ∧ omega s = 1%R
  ∧ rho s = replicate (nx s) r
  ∧ u s = replicate (nx s) v
  ∧ epsilon s = replicate (nx s) 0%R.

(** ** Classes of binary64 values *)

Definition non_finite (x : float) : Prop :=
  match Prim2SF x with
  | S754_nan | S754_infinity _ => True
  | S754_zero _ | S754_finite _ _ _ => False
  end.

Definition is_zero (x : float) : Prop :=
  match Prim2SF x with
  | S754_zero _ => True
  | _ => False
  end.

(** equal as binary64 values, or two zeros that differ in sign at most *)
Definition same_value (x y : float) : Prop :=
  x = y ∨ (is_zero x ∧ is_zero y).

(** The spec's invariant on the macroscopic fields, in binary64: the density
    is the sum of the three populations up to the sign of a zero, the
    velocity is the quotient by the stored density. *)
Definition macro_consistent_b64 (s : solver float) : Prop :=
  ∀ i, i < nx s →
    ∃ x0 x1 x2 r v,
      at2 (f s) 0 i = Some x0 ∧ at2 (f s) 1 i = Some x1 ∧ at2 (f s) 2 i = Some x2
      ∧ rho s !! i = Some r ∧ u s !! i = Some v
      ∧ same_value r (x0 + x1 + x2)%float ∧ v = ((x1 - x2) / r)%float.

(** whether the cell [m[d, i]] holds a NaN *)
Definition cell_is_nan (m : list (list float)) (d i : nat) : bool :=
  match at2 m d i with
  | Some x => PrimFloat.is_nan x
  | None => false
  end.

(** ** Concrete states *)

(** three sites, every cell of [f] different *)
Definition demo : solver R :=
  with_f [[1; 2; 3]; [4; 5; 6]; [7; 8; 9]]%R (new 3 1 1%R).

(** the end-to-end scenario: [nx=10, nt=5, omega=1.0], all else default *)
Definition scenario : solver R := new 10 5 1%R.

(** a stand-in for [np.exp] where a concrete binary64 run is needed: it
    agrees with [np.exp] at 0, the only argument of the runs below, and the
    general float results hold for every function in its place *)
Definition exp_stub (x : float) : float := (1 + x)%float.

(** the binary64 model with [exp_stub] in the place of [np.exp] *)
Definition stub_sc : Scalar float := float_scalar exp_stub.

(** a freshly constructed binary64 solver: two sites, [f = 0], [rho = 1] *)
Definition fresh2 : solver float := @new float stub_sc 2 3 1%float.

(** ** Further states: shapes and counts the constructor does not produce *)

(** [nx = 3] over rows of length 2, as after [solver.nx = 3] on a solver
    built with two sites *)
Definition short_rows : solver R :=
  Solver 3 1 1%R 1%R 1%R [[1; 2]; [3; 4]; [5; 6]]%R [1; 1]%R [0; 0]%R [0; 0]%R
    [0; 1; -1]%Z [1 / 3; 1 / 6; 1 / 6]%R.

(** a negative step count *)
Definition negative_nt : solver R := new 3 (-2) 1%R.

(** [omega = 0]: the solver [__init__] builds, after one iteration of the
    time loop ([f = 0], [rho = 0], [u = NaN]) *)
Definition stalled : solver float :=
  @run_steps float stub_sc 1 (@new float stub_sc 2 2 0%float).

(** [omega = 1] and one infinite population *)
Definition inf_cell : solver float :=
  @with_f float [[infinity; 0]; [0; 0]; [0; 0]]%float (@new float stub_sc 2 1 1%float).

(** a binary64 solver whose velocity at site 0 is a NaN *)
Definition poisoned : solver float :=
  @with_u float [nan; 0%float] (@with_f float [[1; 1]; [1; 1]; [1; 1]]%float fresh2).

(** ** Running the monad *)

Section Run.
Context `{Scalar T}.
Implicit Types s : solver T.

Lemma bind_run {A B} (m : M A) (k : A → M B) s a s1 :
  m s = Some (a, s1) → (m ≫= k) s = k a s1.
Proof. intros Hm. unfold mbind, M_bind. now rewrite Hm. Qed.

Lemma with_f_with_f m m' s : with_f m (with_f m' s) = with_f m s.
Proof. reflexivity. Qed.

Lemma with_f_same s : with_f (f s) s = s.
Proof. now destruct s. Qed.

Lemma f_get_run s d i row x :
  f s !! d = Some row → row !! i = Some x → f_get d i s = Some (x, s).
Proof.
  intros Hd Hi. unfold f_get, mbind, M_bind, gets, index.
  now rewrite Hd, Hi.
Qed.

Lemma f_set_run s d i row x :
  f s !! d = Some row → i < length row →
  f_set d i x s = Some (tt, with_f (<[d := <[i := x]> row]> (f s)) s).
Proof.
  intros Hd Hi. unfold f_set, mbind, M_bind, gets, index, store, modify.
  rewrite Hd. destruct (lookup_lt_is_Some_2 row i Hi) as [y Hy].
  now rewrite Hy.
Qed.

(** The ascending loop of [streaming], entered at index [a] with [k]
    iterations to go: every visited cell receives the value that cell
    [a-1] holds on entry. *)
Lemma stream_up_run k : ∀ a s row v,
  1 ≤ a → a + k ≤ length row →
  f s !! 1 = Some row → row !! (a - 1) = Some v →
  for_each (seq a k) (λ i, x ← f_get 1 (i - 1); f_set 1 i x) s
  = Some (tt, with_f (<[1 := take a row ++ replicate k v ++ drop (a + k) row]> (f s)) s).
Proof.
  induction k as [|k IH]; intros a s row v Ha Hlen Hrow Hv.
  - cbn. rewrite Nat.add_0_r, take_drop.
    rewrite list_insert_id by done. now rewrite with_f_same.
  - cbn [seq for_each].
    rewrite (bind_run _ _ s tt (with_f (<[1 := <[a := v]> row]> (f s)) s)).
    2:{ rewrite (bind_run _ _ s v s) by now apply f_get_run with row.
        apply f_set_run; [done | lia]. }
    assert (Hl1 : 1 < length (f s)) by (apply lookup_lt_is_Some; eauto).
    rewrite (IH (S a) _ (<[a := v]> row) v); cbn [f with_f].
    + rewrite with_f_with_f, list_insert_insert_eq. do 3 f_equal.
      rewrite take_S_r with (x := v) by (apply list_lookup_insert_eq; lia).
      rewrite take_insert_ge by lia.
      rewrite drop_insert_lt by lia.
      rewrite <- app_assoc. cbn. rewrite Nat.add_succ_r. done.
    + lia.
    + rewrite length_insert. lia.
    + now apply list_lookup_insert_eq.
    + replace (S a - 1) with a by lia. apply list_lookup_insert_eq. lia.
Qed.

(** The descending loop of [streaming] over [k-1, ..., 0]: every visited
    cell receives the value that cell [k] holds on entry. *)
Lemma stream_down_run k : ∀ s row v,
  f s !! 2 = Some row → row !! k = Some v →
  for_each (rev (seq 0 k)) (λ i, x ← f_get 2 (i + 1); f_set 2 i x) s
  = Some (tt, with_f (<[2 := replicate k v ++ drop k row]> (f s)) s).
Proof.
  induction k as [|k IH]; intros s row v Hrow Hv.
  - cbn. rewrite list_insert_id by done. now rewrite with_f_same.
  - rewrite seq_S, rev_app_distr. cbn [rev app for_each Nat.add].
    assert (Hk : k < length row).
    { apply lookup_lt_Some in Hv. lia. }
    rewrite (bind_run _ _ s tt (with_f (<[2 := <[k := v]> row]> (f s)) s)).
    2:{ rewrite (bind_run _ _ s v s).
        - now apply f_set_run.
        - apply f_get_run with row; [done|]. now rewrite Nat.add_1_r. }
    assert (Hl2 : 2 < length (f s)) by (apply lookup_lt_is_Some; eauto).
    rewrite (IH _ (<[k := v]> row) v); cbn [f with_f].
    + rewrite with_f_with_f, list_insert_insert_eq. do 3 f_equal.
      rewrite (drop_S _ v k) by now apply list_lookup_insert_eq.
      rewrite drop_insert_lt by lia.
      rewrite replicate_S_end, <- app_assoc. done.
    + now apply list_lookup_insert_eq.
    + now apply list_lookup_insert_eq.
Qed.

Lemma range_1_of_nat n : range 1 (Z.of_nat n) = seq 1 (n - 1).
Proof. unfold range. f_equal. lia. Qed.

Lemma range_down_of_nat n : range_down (Z.of_nat n - 2) = rev (seq 0 (n - 1)).
Proof. unfold range_down. do 2 f_equal. lia. Qed.

Lemma flood_first_length (row : list T) : length (flood_first row) = length row.
Proof. destruct row; [done|]. unfold flood_first. now rewrite length_replicate. Qed.

Lemma flood_last_length (row : list T) : length (flood_last row) = length row.
Proof.
  unfold flood_last. destruct (last row) eqn:E.
  - now rewrite length_replicate.
  - destruct row; [done|]. rewrite last_lookup in E.
    apply lookup_ge_None in E. cbn in E. lia.
Qed.

(** [streaming] never raises on a well-shaped [f], and floods rows 1 and 2. *)
Lemma streaming_run s r0 r1 r2 :
  f s = [r0; r1; r2] → length r1 = nx s → length r2 = nx s →
  streaming s = Some (tt, with_f [r0; flood_first r1; flood_last r2] s).
Proof.
  intros Hf H1 H2. unfold streaming.
  rewrite (bind_run _ _ s (nx s) s) by done.
  rewrite range_1_of_nat, range_down_of_nat.
  destruct r1 as [|x r1'].
  { cbn in H1. rewrite <- H1 in *. destruct r2; [|done].
    cbn. rewrite <- Hf. now rewrite with_f_same. }
  cbn [length] in H1.
  rewrite (bind_run _ _ s tt (with_f [r0; flood_first (x :: r1'); r2] s)).
  2:{ rewrite (stream_up_run _ 1 s (x :: r1') x); [| lia | cbn; lia | now rewrite Hf | done].
      rewrite Hf. cbn [take]. replace (1 + (nx s - 1)) with (length (x :: r1')) by (cbn; lia).
      rewrite drop_all, app_nil_r. cbn [list_insert insert app flood_first length].
      rewrite <- H1. cbn. now rewrite Nat.sub_0_r. }
  destruct (last r2) as [y|] eqn:Hlast.
  2:{ rewrite last_lookup in Hlast. apply lookup_ge_None in Hlast.
      destruct r2; cbn in *; lia. }
  rewrite last_lookup in Hlast.
  replace (pred (length r2)) with (nx s - 1) in Hlast by lia.
  rewrite (stream_down_run _ _ r2 y); [| done | done].
  cbn [f with_f list_insert insert]. rewrite with_f_with_f. do 3 f_equal.
  cbn. f_equal. f_equal.
  unfold flood_last. rewrite last_lookup.
  replace (pred (length r2)) with (nx s - 1) by lia. rewrite Hlast.
  rewrite (drop_S _ y) by done. rewrite drop_ge by lia.
  rewrite <- replicate_S_end. do 2 f_equal. lia.
Qed.

(** *** Shapes *)

Lemma wf_rows s : wf s →
  ∃ r0 r1 r2, f s = [r0; r1; r2]
    ∧ length r0 = nx s ∧ length r1 = nx s ∧ length r2 = nx s.
Proof.
  intros (Hlen & Hrows & _).
  destruct (f s) as [|r0 [|r1 [|r2 [|]]]]; try discriminate.
  exists r0, r1, r2. inversion Hrows as [|? ? ? Hr]; subst.
  inversion Hr as [|? ? ? Hr']; subst. inversion Hr'; subst. done.
Qed.

Lemma wf_intro s r0 r1 r2 :
  f s = [r0; r1; r2] →
  length r0 = nx s → length r1 = nx s → length r2 = nx s →
  length (rho s) = nx s → length (u s) = nx s → length (epsilon s) = nx s →
  c s = [0; 1; -1]%Z →
  w s = [of_int 1 / of_int 3; of_int 1 / of_int 6; of_int 1 / of_int 6]%sc →
  wf s.
Proof.
  intros Hf ? ? ? ? ? ? ? ?. unfold wf. rewrite Hf.
  repeat split; try done. repeat constructor; done.
Qed.

Lemma f_eq_row_length s wi ci :
  length (rho s) = nx s → length (u s) = nx s → length (epsilon s) = nx s →
  length (f_eq_row s wi ci) = nx s.
Proof.
  intros Hr Hu He. unfold f_eq_row, amul, aadd, asub, sa_mul, sa_add, as_add, asq, aexp.
  rewrite !length_zip_with, !length_fmap. lia.
Qed.

Lemma relax_length om a b : length (relax om a b) = length a `min` length b.
Proof.
  unfold relax, aadd, sa_mul. now rewrite length_zip_with, !length_fmap.
Qed.

(** *** The methods on a well-shaped state *)

Lemma equilibrium_run s :
  c s = [0; 1; -1]%Z →
  w s = [of_int 1 / of_int 3; of_int 1 / of_int 6; of_int 1 / of_int 6]%sc →
  equilibrium_distribution s = Some (f_eq_mat s, s).
Proof.
  intros Hc Hw.
  destruct s as [n k om hx ht fs rs us es cs ws]; cbn in Hc, Hw; subst cs ws.
  reflexivity.
Qed.

Lemma collision_run s r0 r1 r2 :
  f s = [r0; r1; r2] →
  c s = [0; 1; -1]%Z →
  w s = [of_int 1 / of_int 3; of_int 1 / of_int 6; of_int 1 / of_int 6]%sc →
  collision s
  = Some (tt, with_f [relax (omega s) r0 (f_eq_row s (of_int 1 / of_int 3)%sc 0);
                      relax (omega s) r1 (f_eq_row s (of_int 1 / of_int 6)%sc 1);
                      relax (omega s) r2 (f_eq_row s (of_int 1 / of_int 6)%sc (-1))] s).
Proof.
  intros Hf Hc Hw. unfold collision.
  rewrite (bind_run _ _ s (f_eq_mat s) s) by now apply equilibrium_run.
  destruct s as [n k om hx ht fs rs us es cs ws]; cbn in Hf; subst fs.
  reflexivity.
Qed.

Lemma update_run s r0 r1 r2 :
  f s = [r0; r1; r2] →
  update_density_velocity s
  = Some (tt, with_u (macro_u [r0; r1; r2]) (with_rho (macro_rho [r0; r1; r2]) s)).
Proof.
  intros Hf.
  destruct s as [n k om hx ht fs rs us es cs ws]; cbn in Hf; subst fs.
  reflexivity.
Qed.

(** *** Element-wise reading of the array expressions *)

Lemma f_eq_row_lookup s wd cd i r v e :
  rho s !! i = Some r → u s !! i = Some v → epsilon s !! i = Some e →
  f_eq_row s wd cd !! i = Some (f_eq_at wd cd r v e).
Proof.
  intros Hr Hv He.
  unfold f_eq_row, f_eq_at, amul, aadd, asub, sa_mul, sa_add, as_add, asq, aexp.
  repeat (rewrite ?lookup_zip_with, ?list_lookup_fmap, ?Hr, ?Hv, ?He; cbn).
  reflexivity.
Qed.

Lemma relax_lookup om a b i x y :
  a !! i = Some x → b !! i = Some y →
  relax om a b !! i = Some ((of_int 1 - om) * x + om * y)%sc.
Proof.
  intros Ha Hb. unfold relax, aadd, sa_mul.
  now rewrite lookup_zip_with, !list_lookup_fmap, Ha, Hb.
Qed.

Lemma macro_rho_lookup r0 r1 r2 i x0 x1 x2 :
  r0 !! i = Some x0 → r1 !! i = Some x1 → r2 !! i = Some x2 →
  macro_rho [r0; r1; r2] !! i = Some (of_int 0 + x0 + x1 + x2)%sc.
Proof.
  intros H0 H1 H2. unfold macro_rho, aadd, zeros.
  rewrite !lookup_zip_with, H0, H1, H2.
  rewrite lookup_replicate_2 by now apply lookup_lt_Some in H0.
  reflexivity.
Qed.

Lemma macro_u_lookup r0 r1 r2 i x0 x1 x2 :
  r0 !! i = Some x0 → r1 !! i = Some x1 → r2 !! i = Some x2 →
  macro_u [r0; r1; r2] !! i = Some ((x1 - x2) / (of_int 0 + x0 + x1 + x2))%sc.
Proof.
  intros H0 H1 H2. unfold macro_u, aadd, asub, adiv, zeros.
  rewrite !lookup_zip_with, H0, H1, H2.
  rewrite lookup_replicate_2 by now apply lookup_lt_Some in H0.
  reflexivity.
Qed.

Lemma macro_rho_length r0 r1 r2 n :
  length r0 = n → length r1 = n → length r2 = n →
  length (macro_rho [r0; r1; r2]) = n.
Proof.
  intros. unfold macro_rho, aadd, zeros.
  rewrite !length_zip_with, length_replicate. lia.
Qed.

Lemma macro_u_length r0 r1 r2 n :
  length r0 = n → length r1 = n → length r2 = n →
  length (macro_u [r0; r1; r2]) = n.
Proof.
  intros. unfold macro_u, aadd, asub, adiv, zeros.
  rewrite !length_zip_with, length_replicate. lia.
Qed.

(** *** One iteration on a well-shaped state *)

Lemma update_run_macro s :
  length (f s) = 3 →
  update_density_velocity s
  = Some (tt, with_u (macro_u (f s)) (with_rho (macro_rho (f s)) s)).
Proof.
  intros Hlen. destruct (f s) as [|r0 [|r1 [|r2 [|]]]] eqn:Hf; try discriminate.
  now apply update_run.
Qed.

Lemma step_run s : wf s → step s = Some (tt, step_state s).
Proof.
  intros Hwf. destruct (wf_rows s Hwf) as (r0 & r1 & r2 & Hf & H0 & H1 & H2).
  destruct Hwf as (_ & _ & Hr & Hu & He & Hc & Hw).
  unfold step, step_state, step_f. rewrite Hf.
  rewrite (bind_run _ _ s tt _ (collision_run s r0 r1 r2 Hf Hc Hw)).
  erewrite bind_run.
  2:{ apply streaming_run; [reflexivity | |];
      cbn; rewrite relax_length, f_eq_row_length by done; lia. }
  erewrite update_run by reflexivity. reflexivity.
Qed.

Lemma step_state_wf s : wf s → wf (step_state s).
Proof.
  intros Hwf. destruct (wf_rows s Hwf) as (r0 & r1 & r2 & Hf & H0 & H1 & H2).
  destruct Hwf as (_ & _ & Hr & Hu & He & Hc & Hw).
  assert (L0 : ∀ wd cd r, length r = nx s →
    length (relax (omega s) r (f_eq_row s wd cd)) = nx s).
  { intros. rewrite relax_length, f_eq_row_length by done. lia. }
  unfold step_state, step_f. rewrite Hf.
  eapply wf_intro; [cbn; reflexivity | cbn ..].
  - now apply L0.
  - rewrite flood_first_length. now apply L0.
  - rewrite flood_last_length. now apply L0.
  - apply macro_rho_length; rewrite ?flood_first_length, ?flood_last_length; now apply L0.
  - apply macro_u_length; rewrite ?flood_first_length, ?flood_last_length; now apply L0.
  - exact He.
  - exact Hc.
  - exact Hw.
Qed.

Lemma step_state_nt s : nt (step_state s) = nt s.
Proof. reflexivity. Qed.

Lemma init_wf n k om hx ht : wf (__init__ n k om hx ht).
Proof.
  eapply wf_intro; [cbn; reflexivity | cbn ..]; try reflexivity;
    unfold zeros, ones; now rewrite length_replicate.
Qed.
End Run.

(** ** Streaming *)

Section Streaming.
Context `{Scalar T}.
Implicit Types s : solver T.

Lemma flood_first_lookup (row : list T) i x :
  row !! 0 = Some x → i < length row → flood_first row !! i = Some x.
Proof.
  destruct row as [|y row]; [done|]. intros [= ->] Hi.
  unfold flood_first. now apply lookup_replicate_2.
Qed.

Lemma flood_last_lookup (row : list T) i x :
  row !! (length row - 1) = Some x → i < length row → flood_last row !! i = Some x.
Proof.
  intros Hx Hi. unfold flood_last. rewrite last_lookup.
  replace (pred (length row)) with (length row - 1) by lia. rewrite Hx.
  now apply lookup_replicate_2.
Qed.

Lemma streaming_wf_run s : wf s →
  ∃ r0 r1 r2, f s = [r0; r1; r2]
    ∧ length r0 = nx s ∧ length r1 = nx s ∧ length r2 = nx s
    ∧ streaming s = Some (tt, with_f [r0; flood_first r1; flood_last r2] s).
Proof.
  intros Hwf. destruct (wf_rows s Hwf) as (r0 & r1 & r2 & Hf & H0 & H1 & H2).
  exists r0, r1, r2. repeat split; try done. now apply streaming_run.
Qed.

(** C3. One call to [streaming] leaves row 1 constant from index 1 onward
    at the value [f[1,0]] had before the call, and row 2 constant up to
    index [nx-2] at the value [f[2,nx-1]] had before the call: the
    in-place loops carry one edge value across the whole row. *)
Theorem streaming_floods_rows s :
  wf s →
  ∃ s', streaming s = Some (tt, s')
    ∧ (∀ i, 1 ≤ i → i < nx s →
         ∃ x, at2 (f s) 1 0 = Some x ∧ at2 (f s') 1 i = Some x)
    ∧ (∀ i, i + 2 ≤ nx s →
         ∃ x, at2 (f s) 2 (nx s - 1) = Some x ∧ at2 (f s') 2 i = Some x).
Proof.
  intros Hwf.
  destruct (streaming_wf_run s Hwf) as (r0 & r1 & r2 & Hf & H0 & H1 & H2 & Hrun).
  eexists. split; [exact Hrun|]. cbn [f with_f]. rewrite Hf. unfold at2. cbn.
  split.
  - intros i Hi1 Hi.
    destruct (lookup_lt_is_Some_2 r1 0) as [x Hx]; [lia|].
    exists x. split; [done|]. apply flood_first_lookup; [done | lia].
  - intros i Hi.
    destruct (lookup_lt_is_Some_2 r2 (nx s - 1)) as [x Hx]; [lia|].
    exists x. split; [done|]. apply flood_last_lookup; [now rewrite H2 | lia].
Qed.

(** C4 (as amended). One call to [streaming] leaves unchanged the leftmost
    value of direction 1, [f[1,0]], the rightmost value of direction 2,
    [f[2,nx-1]], and the whole rest-direction row [f[0,:]]. *)
Theorem streaming_frame s :
  wf s →
  ∃ s', streaming s = Some (tt, s')
    ∧ at2 (f s') 1 0 = at2 (f s) 1 0
    ∧ at2 (f s') 2 (nx s - 1) = at2 (f s) 2 (nx s - 1)
    ∧ f s' !! 0 = f s !! 0.
Proof.
  intros Hwf.
  destruct (streaming_wf_run s Hwf) as (r0 & r1 & r2 & Hf & H0 & H1 & H2 & Hrun).
  eexists. split; [exact Hrun|]. cbn [f with_f]. rewrite Hf. unfold at2. cbn.
  repeat split.
  - destruct r1 as [|x r1]; [done|]. reflexivity.
  - destruct (decide (nx s = 0)) as [Hz|Hnz].
    + rewrite !lookup_ge_None_2; [done | lia |]. rewrite flood_last_length. lia.
    + destruct (lookup_lt_is_Some_2 r2 (nx s - 1)) as [x Hx]; [lia|].
      rewrite Hx. apply flood_last_lookup; [now rewrite H2 | lia].
Qed.
End Streaming.

Lemma demo_wf : wf demo.
Proof. eapply wf_intro; [cbn; reflexivity | cbn ..]; reflexivity. Qed.

Lemma scenario_wf : wf scenario.
Proof. apply init_wf. Qed.

(** C3, at a concrete state. *)
Lemma streaming_floods_rows_demo :
  wf demo
  ∧ ∃ s', streaming demo = Some (tt, s')
      ∧ (∀ i, 1 ≤ i → i < nx demo →
           ∃ x, at2 (f demo) 1 0 = Some x ∧ at2 (f s') 1 i = Some x)
      ∧ (∀ i, i + 2 ≤ nx demo →
           ∃ x, at2 (f demo) 2 (nx demo - 1) = Some x ∧ at2 (f s') 2 i = Some x).
Proof.
  split; [exact demo_wf | exact (streaming_floods_rows demo demo_wf)].
Defined.

(** C4 (as amended), at a concrete state. *)
Lemma streaming_frame_demo :
  wf demo
  ∧ ∃ s', streaming demo = Some (tt, s')
      ∧ at2 (f s') 1 0 = at2 (f demo) 1 0
      ∧ at2 (f s') 2 (nx demo - 1) = at2 (f demo) 2 (nx demo - 1)
      ∧ f s' !! 0 = f demo !! 0.
Proof.
  split; [exact demo_wf | exact (streaming_frame demo demo_wf)].
Defined.

Lemma streaming_demo :
  streaming demo
  = Some (tt, with_f [[1; 2; 3]; [4; 4; 4]; [9; 9; 9]]%R demo).
Proof. now rewrite (streaming_run demo [1; 2; 3]%R [4; 5; 6]%R [7; 8; 9]%R). Qed.

(** C1, refuted on the program.  With [f[1,:] = [4, 5, 6]] and
    [f[2,:] = [7, 8, 9]] before the call, site 2 of direction 1 ends with 4
    (the old [f[1,0]]) and not with its upstream neighbour's old value 5;
    site 0 of direction 2 ends with 9 (the old [f[2,2]]) and not with 8. *)
Theorem streaming_is_not_a_one_site_shift :
  ∃ s', streaming demo = Some (tt, s')
    ∧ at2 (f demo) 1 1 = Some 5%R ∧ at2 (f s') 1 2 = Some 4%R
    ∧ at2 (f s') 1 2 ≠ at2 (f demo) 1 1
    ∧ at2 (f demo) 2 1 = Some 8%R ∧ at2 (f s') 2 0 = Some 9%R
    ∧ at2 (f s') 2 0 ≠ at2 (f demo) 2 1.
Proof.
  eexists. split; [exact streaming_demo|]. cbn.
  repeat split; try reflexivity; intros [= E]; lra.
Qed.

(** C4, refuted as stated.  The rightmost value of direction 1 and the
    leftmost value of direction 2 are both overwritten. *)
Lemma streaming_overwrites_far_edges :
  ∃ s', streaming demo = Some (tt, s')
    ∧ at2 (f s') 1 (nx demo - 1) ≠ at2 (f demo) 1 (nx demo - 1)
    ∧ at2 (f s') 2 0 ≠ at2 (f demo) 2 0.
Proof.
  eexists. split; [exact streaming_demo|]. cbn.
  split; intros [= E]; lra.
Qed.

(** ** Equilibrium, macroscopic update and the driver *)

Section Driver.
Context `{Scalar T}.
Implicit Types s : solver T.
Local Open Scope sc_scope.



Lemma macro_computed_after_update s r0 r1 r2 :
  f s = [r0; r1; r2] →
  length r0 = nx s → length r1 = nx s → length r2 = nx s →
  macro_computed (with_u (macro_u (f s)) (with_rho (macro_rho (f s)) s)).
Proof.
  intros Hf H0 H1 H2 i Hi. cbn in Hi. cbn [f rho u with_u with_rho]. rewrite Hf.
  destruct (lookup_lt_is_Some_2 r0 i) as [x0 Hx0]; [lia|].
  destruct (lookup_lt_is_Some_2 r1 i) as [x1 Hx1]; [lia|].
  destruct (lookup_lt_is_Some_2 r2 i) as [x2 Hx2]; [lia|].
  exists x0, x1, x2, (of_int 0 + x0 + x1 + x2), ((x1 - x2) / (of_int 0 + x0 + x1 + x2)).
  unfold at2; cbn. repeat split; try done.
  - now apply macro_rho_lookup.
  - now apply macro_u_lookup.
Qed.

Lemma step_state_macro_computed s : wf s → macro_computed (step_state s).
Proof.
  intros Hwf. pose proof (step_state_wf s Hwf) as Hwf'.
  destruct (wf_rows _ Hwf') as (r0 & r1 & r2 & Hf & H0 & H1 & H2).
  unfold step_state in *. cbn [f with_u with_rho with_f] in Hf.
  pose proof (macro_computed_after_update (with_f (step_f s) s) r0 r1 r2 Hf H0 H1 H2) as Hm.
  exact Hm.
Qed.

Lemma run_steps_wf k : ∀ s, wf s → wf (run_steps k s).
Proof. induction k; intros s Hwf; cbn; auto using step_state_wf. Qed.

Lemma run_steps_macro_computed k s :
  wf s → macro_computed (run_steps (S k) s).
Proof.
  revert s. induction k as [|k IH]; intros s Hwf.
  - now apply step_state_macro_computed.
  - cbn [run_steps]. apply (IH (step_state s)). now apply step_state_wf.
Qed.

Lemma steps_run k : ∀ s, wf s → steps k s = Some (tt, run_steps k s).
Proof.
  induction k as [|k IH]; intros s Hwf; [reflexivity|].
  pose proof (step_run s Hwf) as Hstep. unfold step in Hstep.
  cbn [steps run_steps]. rewrite <- (IH (step_state s)) by now apply step_state_wf.
  unfold mbind, M_bind in *.
  destruct (collision s) as [[[] s1]|]; [|discriminate].
  destruct (streaming s1) as [[[] s2]|]; [|discriminate].
  destruct (update_density_velocity s2) as [[[] s3]|]; [|discriminate].
  now injection Hstep as ->.
Qed.

Lemma for_each_steps {A} (l : list A) : ∀ s,
  for_each l (λ _, collision;; streaming;; update_density_velocity) s
  = steps (length l) s.
Proof.
  induction l as [|x l IH]; intros s; [reflexivity|].
  cbn [for_each steps length]. unfold mbind, M_bind.
  destruct (collision s) as [[[] s1]|]; [|reflexivity].
  destruct (streaming s1) as [[[] s2]|]; [|reflexivity].
  destruct (update_density_velocity s2) as [[[] s3]|]; [|reflexivity].
  apply IH.
Qed.

Lemma evolve_steps s : evolve s = steps (Z.to_nat (nt s)) s.
Proof.
  unfold evolve. rewrite (bind_run _ _ s (nt s) s) by reflexivity.
  rewrite for_each_steps. unfold range. rewrite length_seq.
  f_equal. lia.
Qed.

(** C10. For a non-negative [nt], [evolve] performs exactly [nt]
    iterations, each one [collision], then [streaming], then
    [update_density_velocity]; on a well-shaped solver none of them raises,
    so the run ends in the state reached after all [nt] iterations; with
    [nt = 0] the solver is left as it was. *)
Theorem evolve_runs_nt_iterations s :
  (0 ≤ nt s)%Z →
  evolve s = steps (Z.to_nat (nt s)) s
  ∧ (wf s → evolve s = Some (tt, run_steps (Z.to_nat (nt s)) s))
  ∧ (nt s = 0%Z → evolve s = Some (tt, s)).
Proof.
  intros Hnt. split; [apply evolve_steps|]. split.
  - intros Hwf. rewrite evolve_steps. now apply steps_run.
  - intros H0. rewrite evolve_steps, H0. reflexivity.
Qed.

(** In every scalar model, the state that [update_density_velocity] returns,
    and the state that [evolve] returns when [nt >= 1], hold the sum and the
    quotient exactly as the method computes them. *)
Lemma macro_computed_after_update_and_evolve s :
  wf s →
  (∃ s', update_density_velocity s = Some (tt, s') ∧ macro_computed s')
  ∧ ((1 ≤ nt s)%Z → ∃ s', evolve s = Some (tt, s') ∧ macro_computed s').
Proof.
  intros Hwf. split.
  - destruct (wf_rows s Hwf) as (r0 & r1 & r2 & Hf & H0 & H1 & H2).
    eexists. split.
    + apply update_run_macro. now rewrite Hf.
    + now apply macro_computed_after_update with r0 r1 r2.
  - intros Hnt. eexists. split.
    + rewrite evolve_steps. now apply steps_run.
    + destruct (Z.to_nat (nt s)) as [|k] eqn:E; [lia|].
      now apply run_steps_macro_computed.
Qed.

Lemma update_state_wf s :
  wf s → wf (with_u (macro_u (f s)) (with_rho (macro_rho (f s)) s)).
Proof.
  intros Hwf. destruct (wf_rows s Hwf) as (r0 & r1 & r2 & Hf & H0 & H1 & H2).
  destruct Hwf as (_ & _ & Hr & Hu & He & Hc & Hw).
  eapply wf_intro; [cbn; exact Hf | cbn ..]; try done; rewrite Hf.
  - now apply macro_rho_length.
  - now apply macro_u_length.
Qed.
End Driver.


(** C10, at the end-to-end scenario ([nt = 5]). *)
Lemma evolve_runs_nt_iterations_scenario :
  (0 ≤ nt scenario)%Z
  ∧ evolve scenario = steps (Z.to_nat (nt scenario)) scenario
  ∧ (wf scenario → evolve scenario = Some (tt, run_steps (Z.to_nat (nt scenario)) scenario))
  ∧ (nt scenario = 0%Z → evolve scenario = Some (tt, scenario)).
Proof.
  assert (Hnt : (0 ≤ nt scenario)%Z) by (cbn; lia).
  split; [exact Hnt | exact (evolve_runs_nt_iterations scenario Hnt)].
Defined.

(** C5, refuted as stated.  The freshly constructed solver has [rho = 1]
    over [f = 0]. *)
Lemma fresh_solver_not_macro_consistent :
  ¬ macro_consistent (new 1 0 1%R).
Proof.
  intros Hm. destruct (Hm 0) as (x0 & x1 & x2 & r & v & H0 & H1 & H2 & Hr & _ & E & _).
  { cbn. lia. }
  cbn in H0, H1, H2, Hr.
  injection H0 as <-. injection H1 as <-. injection H2 as <-. injection Hr as <-.
  cbn in E. lra.
Qed.

(** ** Exact arithmetic: collision and the equilibrium moments *)

Section Reals.
Implicit Types s : solver R.
Local Open Scope R_scope.

Lemma relax_one (a b : list R) : length a = length b → relax 1 a b = b.
Proof.
  intros Hlen. apply (list_eq_same_length _ _ (length b)); [done | |].
  - rewrite relax_length. lia.
  - intros i x y Hi Hx Hy.
    destruct (lookup_lt_is_Some_2 a i) as [z Hz]; [lia|].
    rewrite (relax_lookup _ _ _ _ _ _ Hz Hy) in Hx. injection Hx as <-.
    cbn. lra.
Qed.

Lemma relax_zero (a b : list R) : length a = length b → relax 0 a b = a.
Proof.
  intros Hlen. apply (list_eq_same_length _ _ (length a)); [done | |].
  - rewrite relax_length. lia.
  - intros i x y Hi Hx Hy.
    destruct (lookup_lt_is_Some_2 b i) as [z Hz]; [lia|].
    rewrite (relax_lookup _ _ _ _ _ _ Hy Hz) in Hx. injection Hx as <-.
    cbn. lra.
Qed.

(** In exact arithmetic [collision] sets every [f[d,i]] to
    [(1-omega)*f[d,i] + omega*f_eq[d,i]], with [f_eq] the matrix that
    [equilibrium_distribution] returns in the same state; with [omega = 1]
    the new [f] is that matrix, with [omega = 0] it is the old [f]. *)
Theorem collision_relaxes s :
  wf s →
  ∃ f_eq s',
    equilibrium_distribution s = Some (f_eq, s)
    ∧ collision s = Some (tt, s')
    ∧ (∀ d i : nat, (d < 3)%nat → (i < nx s)%nat →
         ∃ x e, at2 (f s) d i = Some x ∧ at2 f_eq d i = Some e
           ∧ at2 (f s') d i = Some ((1 - omega s) * x + omega s * e))
    ∧ (omega s = 1 → f s' = f_eq)
    ∧ (omega s = 0 → f s' = f s).
Proof.
  intros Hwf. destruct (wf_rows s Hwf) as (r0 & r1 & r2 & Hf & H0 & H1 & H2).
  destruct Hwf as (_ & _ & Hr & Hu & He & Hc & Hw).
  assert (Le : ∀ wd cd, length (f_eq_row s wd cd) = nx s).
  { intros. now apply f_eq_row_length. }
  exists (f_eq_mat s). eexists.
  split; [now apply equilibrium_run|].
  split; [exact (collision_run s r0 r1 r2 Hf Hc Hw)|].
  cbn [f with_f]. rewrite Hf. split; [|split].
  - intros d i Hd Hi. unfold at2, f_eq_mat.
    destruct d as [|[|[|d]]]; [| | |lia]; cbn.
    + destruct (lookup_lt_is_Some_2 r0 i) as [x Hx]; [lia|].
      destruct (lookup_lt_is_Some_2 (f_eq_row s (1 / 3) 0) i) as [e Hfe]; [rewrite Le; lia|].
      exists x, e. repeat split; try done. exact (relax_lookup (omega s) _ _ _ _ _ Hx Hfe).
    + destruct (lookup_lt_is_Some_2 r1 i) as [x Hx]; [lia|].
      destruct (lookup_lt_is_Some_2 (f_eq_row s (1 / 6) 1) i) as [e Hfe]; [rewrite Le; lia|].
      exists x, e. repeat split; try done. exact (relax_lookup (omega s) _ _ _ _ _ Hx Hfe).
    + destruct (lookup_lt_is_Some_2 r2 i) as [x Hx]; [lia|].
      destruct (lookup_lt_is_Some_2 (f_eq_row s (1 / 6) (-1)) i) as [e Hfe]; [rewrite Le; lia|].
      exists x, e. repeat split; try done. exact (relax_lookup (omega s) _ _ _ _ _ Hx Hfe).
  - intros ->. unfold f_eq_mat. cbn [of_int R_scalar sdiv].
    rewrite !relax_one; [done | rewrite Le; lia ..].
  - intros ->. rewrite !relax_zero; [done | rewrite Le; lia ..].
Qed.

Lemma f_eq_at_sum r v e :
  f_eq_at (1 / 3) 0 r v e + f_eq_at (1 / 6) 1 r v e + f_eq_at (1 / 6) (-1) r v e
  = r * exp e * (13 + 12 * v + 12 * v ^ 2) / 6.
Proof. unfold f_eq_at, ssq. cbn. field. Qed.

Lemma f_eq_at_flux r v e :
  f_eq_at (1 / 6) 1 r v e - f_eq_at (1 / 6) (-1) r v e = r * exp e * (1 + 3 * v).
Proof. unfold f_eq_at, ssq. cbn. field. Qed.

(** C7. Where the density is positive, the three equilibrium populations
    of a site add up to [rho * exp(epsilon) * (13 + 12 u + 12 u^2) / 6],
    which exceeds [rho * exp(epsilon)] whatever [u] is; with
    [epsilon = 0] the sum therefore differs from [rho]. *)
Theorem equilibrium_sum_exceeds_density s :
  wf s →
  (∀ (i : nat) r, rho s !! i = Some r → 0 < r) →
  ∃ f_eq,
    equilibrium_distribution s = Some (f_eq, s)
    ∧ ∀ i : nat, (i < nx s)%nat →
        ∃ e0 e1 e2 r v eps,
          at2 f_eq 0 i = Some e0 ∧ at2 f_eq 1 i = Some e1 ∧ at2 f_eq 2 i = Some e2
          ∧ rho s !! i = Some r ∧ u s !! i = Some v ∧ epsilon s !! i = Some eps
          ∧ e0 + e1 + e2 = r * exp eps * (13 + 12 * v + 12 * v ^ 2) / 6
          ∧ r * exp eps < e0 + e1 + e2
          ∧ (eps = 0 → e0 + e1 + e2 ≠ r).
Proof.
  intros Hwf Hpos. destruct Hwf as (_ & _ & Hr & Hu & He & Hc & Hw).
  exists (f_eq_mat s). split; [now apply equilibrium_run|].
  intros i Hi.
  destruct (lookup_lt_is_Some_2 (rho s) i) as [r Hri]; [lia|].
  destruct (lookup_lt_is_Some_2 (u s) i) as [v Hvi]; [lia|].
  destruct (lookup_lt_is_Some_2 (epsilon s) i) as [eps Hei]; [lia|].
  exists (f_eq_at (1 / 3) 0 r v eps), (f_eq_at (1 / 6) 1 r v eps),
         (f_eq_at (1 / 6) (-1) r v eps), r, v, eps.
  unfold at2, f_eq_mat. cbn [lookup list_lookup mbind option_bind of_int sdiv R_scalar].
  split; [now apply f_eq_row_lookup|].
  split; [now apply f_eq_row_lookup|].
  split; [now apply f_eq_row_lookup|].
  do 3 (split; [done|]).
  pose proof (Hpos i r Hri) as Hrpos. pose proof (exp_pos eps) as Hexp.
  assert (Ht : 0 < r * exp eps) by now apply Rmult_lt_0_compat.
  assert (Hgt : r * exp eps < r * exp eps * (13 + 12 * v + 12 * v ^ 2) / 6).
  { assert (0 < r * exp eps * (3 * (2 * v + 1) ^ 2 + 4)).
    { apply Rmult_lt_0_compat; [done|]. nra. }
    nra. }
  rewrite f_eq_at_sum. split; [done|]. split; [done|].
  intros ->. rewrite exp_0 in *. lra.
Qed.

(** *** Uniform states under full relaxation *)

Lemma f_eq_row_uniform s r v wd cd :
  rho s = replicate (nx s) r → u s = replicate (nx s) v →
  epsilon s = replicate (nx s) 0 →
  f_eq_row s wd cd = replicate (nx s) (f_eq_at wd cd r v 0).
Proof.
  intros Hr Hu He. unfold f_eq_row, f_eq_at.
  unfold amul, aadd, asub, sa_mul, sa_add, as_add, asq, aexp.
  rewrite Hr, Hu, He.
  now rewrite ?fmap_replicate, ?zip_with_replicate, ?fmap_replicate,
    ?zip_with_replicate, ?fmap_replicate, ?zip_with_replicate.
Qed.

Lemma flood_first_replicate {A} n (x : A) :
  flood_first (replicate n x) = replicate n x.
Proof. destruct n; [done|]. cbn. now rewrite length_replicate. Qed.

Lemma flood_last_replicate {A} n (x : A) :
  flood_last (replicate n x) = replicate n x.
Proof.
  destruct n; [done|]. unfold flood_last.
  rewrite last_lookup, length_replicate. cbn [pred].
  rewrite lookup_replicate_2 by lia. reflexivity.
Qed.

Lemma step_f_uniform r v s :
  uniform r v s →
  step_f s = [replicate (nx s) (f_eq_at (1 / 3) 0 r v 0);
              replicate (nx s) (f_eq_at (1 / 6) 1 r v 0);
              replicate (nx s) (f_eq_at (1 / 6) (-1) r v 0)].
Proof.
  intros (Hwf & Hom & Hr & Hu & He).
  destruct (wf_rows s Hwf) as (r0 & r1 & r2 & Hf & H0 & H1 & H2).
  unfold step_f. rewrite Hf, Hom. cbn [of_int sdiv R_scalar].
  rewrite !(f_eq_row_uniform s r v) by done.
  rewrite !relax_one by now rewrite length_replicate.
  now rewrite flood_first_replicate, flood_last_replicate.
Qed.

Lemma uniform_step r v s :
  uniform r v s →
  let r' := f_eq_at (1 / 3) 0 r v 0 + f_eq_at (1 / 6) 1 r v 0
            + f_eq_at (1 / 6) (-1) r v 0 in
  let v' := (f_eq_at (1 / 6) 1 r v 0 - f_eq_at (1 / 6) (-1) r v 0) / r' in
  uniform r' v' (step_state s).
Proof.
  intros Hun r' v'. pose proof (step_f_uniform r v s Hun) as Hstep.
  destruct Hun as (Hwf & Hom & Hr & Hu & He).
  split; [now apply step_state_wf|].
  unfold step_state. cbn [omega rho u epsilon nx with_u with_rho with_f].
  rewrite Hstep. unfold macro_rho, macro_u, aadd, asub, adiv, zeros.
  rewrite length_replicate, !zip_with_replicate.
  cbn [of_int sadd R_scalar]. rewrite Rplus_0_l. done.
Qed.

Lemma div_between (a b n d : R) :
  0 < d → a * d <= n → n <= b * d → a <= n / d ∧ n / d <= b.
Proof.
  intros Hd Ha Hb. split.
  - apply Rmult_le_reg_r with d; [done|]. unfold Rdiv.
    rewrite Rmult_assoc, Rinv_l by lra. lra.
  - apply Rmult_le_reg_r with d; [done|]. unfold Rdiv.
    rewrite Rmult_assoc, Rinv_l by lra. lra.
Qed.

(** one iteration multiplies a positive uniform density by at least 13/6
    and sends a velocity in [0, 1] into [6/13, 1] *)
Lemma uniform_growth r v :
  0 < r → 0 <= v → v <= 1 →
  let r' := f_eq_at (1 / 3) 0 r v 0 + f_eq_at (1 / 6) 1 r v 0
            + f_eq_at (1 / 6) (-1) r v 0 in
  let v' := (f_eq_at (1 / 6) 1 r v 0 - f_eq_at (1 / 6) (-1) r v 0) / r' in
  13 / 6 * r <= r' ∧ 6 / 13 <= v' ∧ v' <= 1.
Proof.
  intros Hr Hv0 Hv1 r' v'. subst v' r'.
  rewrite f_eq_at_sum, f_eq_at_flux, exp_0.
  assert (Hrv : 0 <= r * v) by (apply Rmult_le_pos; lra).
  assert (Hrv2 : 0 <= r * v * v) by (apply Rmult_le_pos; lra).
  assert (Hrv1 : 0 <= r * v * (1 - v)) by (apply Rmult_le_pos; lra).
  assert (Hsq : 0 <= r * (12 * v ^ 2 - 6 * v + 7)).
  { apply Rmult_le_pos; [lra | nra]. }
  split; [nra|].
  apply div_between; nra.
Qed.

Lemma run_steps_nx k : ∀ s, nx (run_steps k s) = nx s.
Proof. induction k as [|k IH]; intros s; [done|]. cbn [run_steps]. now rewrite IH. Qed.

Lemma run_steps_uniform k : ∀ s r v,
  uniform r v s → 0 < r → 6 / 13 <= v → v <= 1 →
  ∃ r' v', uniform r' v' (run_steps k s)
    ∧ (13 / 6) ^ k * r <= r' ∧ 6 / 13 <= v' ∧ v' <= 1.
Proof.
  induction k as [|k IH]; intros s r v Hun Hr Hv0 Hv1.
  - exists r, v. split; [exact Hun|]. cbn. lra.
  - pose proof (uniform_step r v s Hun) as Hun'.
    destruct (uniform_growth r v) as (Hg & Hl & Hh); [lra ..|].
    cbn zeta in Hun', Hg, Hl, Hh.
    destruct (IH _ _ _ Hun') as (r'' & v'' & Hun'' & Hr'' & Hv0'' & Hv1'');
      [lra | lra | lra |].
    exists r'', v''. cbn [run_steps]. split; [exact Hun''|].
    assert (0 <= (13 / 6) ^ k) by (apply pow_le; lra).
    cbn [pow]. repeat split; [nra | lra | lra].
Qed.
End Reals.

Lemma demo_density_positive :
  ∀ (i : nat) (r : R), rho demo !! i = Some r → (0 < r)%R.
Proof.
  intros i r Hr. destruct i as [|[|[|i]]]; cbn in Hr; [| | |discriminate];
    injection Hr as <-; lra.
Qed.

(** [collision_relaxes], at a concrete state. *)
Lemma collision_relaxes_demo :
  wf demo
  ∧ ∃ f_eq s',
      equilibrium_distribution demo = Some (f_eq, demo)
      ∧ collision demo = Some (tt, s')
      ∧ (∀ d i : nat, d < 3 → i < nx demo →
           ∃ x e, at2 (f demo) d i = Some x ∧ at2 f_eq d i = Some e
             ∧ at2 (f s') d i = Some ((1 - omega demo) * x + omega demo * e)%R)
      ∧ (omega demo = 1%R → f s' = f_eq)
      ∧ (omega demo = 0%R → f s' = f demo).
Proof.
  split; [exact demo_wf | exact (collision_relaxes demo demo_wf)].
Defined.

(** C7, at a concrete state. *)
Lemma equilibrium_sum_exceeds_density_demo :
  wf demo
  ∧ (∀ (i : nat) (r : R), rho demo !! i = Some r → (0 < r)%R)
  ∧ ∃ f_eq,
      equilibrium_distribution demo = Some (f_eq, demo)
      ∧ ∀ i : nat, i < nx demo →
          ∃ e0 e1 e2 r v eps,
            at2 f_eq 0 i = Some e0 ∧ at2 f_eq 1 i = Some e1 ∧ at2 f_eq 2 i = Some e2
            ∧ rho demo !! i = Some r ∧ u demo !! i = Some v ∧ epsilon demo !! i = Some eps
            ∧ (e0 + e1 + e2 = r * exp eps * (13 + 12 * v + 12 * v ^ 2) / 6)%R
            ∧ (r * exp eps < e0 + e1 + e2)%R
            ∧ (eps = 0%R → (e0 + e1 + e2)%R ≠ r).
Proof.
  split; [exact demo_wf|]. split; [exact demo_density_positive|].
  exact (equilibrium_sum_exceeds_density demo demo_wf demo_density_positive).
Defined.

Lemma scenario_uniform : uniform 1 0 scenario.
Proof. split; [exact scenario_wf | repeat split]. Qed.

(** C2, refuted on the program.  In the end-to-end scenario ([nx=10],
    [nt=5], [omega=1], [rho=1], [u=0], [epsilon=0]) [evolve] ends with a
    density above 47 and a velocity of at least 6/13 at every one of the
    ten sites: the density is multiplied by at least 13/6 in each of the
    five iterations. *)
Theorem scenario_density_and_velocity_drift :
  ∃ s', evolve scenario = Some (tt, s')
    ∧ ∀ i : nat, i < 10 →
        ∃ r v, rho s' !! i = Some r ∧ u s' !! i = Some v
          ∧ (47 < r)%R ∧ (6 / 13 <= v)%R.
Proof.
  exists (run_steps 5 scenario). split.
  { rewrite evolve_steps. now apply steps_run, scenario_wf. }
  pose proof (uniform_step 1 0 scenario scenario_uniform) as Hun1.
  destruct (uniform_growth 1 0) as (Hg & Hl & Hh); [lra ..|].
  cbn zeta in Hun1, Hg, Hl, Hh.
  destruct (run_steps_uniform 4 _ _ _ Hun1) as (r & v & Hun & Hr & Hv0 & Hv1);
    [lra ..|].
  change (run_steps 4 (step_state scenario)) with (run_steps 5 scenario) in Hun.
  destruct Hun as (_ & _ & Hrho & Hu & _).
  rewrite run_steps_nx in Hrho, Hu. change (nx scenario) with 10 in Hrho, Hu.
  intros i Hi. exists r, v. rewrite Hrho, Hu.
  rewrite !lookup_replicate_2 by done. repeat split; [|lra].
  cbn [pow] in Hr. lra.
Qed.

(** ** binary64: an unguarded division *)

Section Floats.
Variable np_exp : float → float.
#[local] Instance float_sc : Scalar float := float_scalar np_exp.
Implicit Types s : solver float.
Local Open Scope float_scope.

Lemma non_finite_cases x :
  non_finite x → x = nan ∨ x = infinity ∨ x = neg_infinity.
Proof.
  unfold non_finite. intros Hx.
  destruct (Prim2SF x) as [sg | sg | | sg m e] eqn:E; try done.
  - destruct sg; [right; right | right; left]; apply Prim2SF_inj; now rewrite E.
  - left. apply Prim2SF_inj. now rewrite E.
Qed.

Lemma nan_non_finite : non_finite nan.
Proof. exact I. Qed.

Lemma add_nan_l x : nan + x = nan.
Proof. apply Prim2SF_inj. now rewrite add_spec. Qed.

Lemma add_nan_r x : x + nan = nan.
Proof.
  apply Prim2SF_inj. rewrite add_spec.
  change (Prim2SF nan) with S754_nan. now destruct (Prim2SF x).
Qed.

Lemma mul_nan_l x : nan * x = nan.
Proof. apply Prim2SF_inj. now rewrite mul_spec. Qed.

Lemma mul_nan_r x : x * nan = nan.
Proof.
  apply Prim2SF_inj. rewrite mul_spec.
  change (Prim2SF nan) with S754_nan. now destruct (Prim2SF x).
Qed.

Lemma div_nan_r x : x / nan = nan.
Proof.
  apply Prim2SF_inj. rewrite div_spec.
  change (Prim2SF nan) with S754_nan. now destruct (Prim2SF x).
Qed.

(** [x / 0] is an infinity or a NaN, whatever [x] is *)
Lemma div_zero_non_finite x z : is_zero z → non_finite (x / z).
Proof.
  unfold is_zero, non_finite. rewrite div_spec. intros Hz.
  destruct (Prim2SF z); try done. now destruct (Prim2SF x).
Qed.

(** the bracket of the equilibrium formula at a non-finite velocity *)
Lemma bracket_nan (cd : Z) v :
  cd = 0%Z ∨ cd = 1%Z ∨ cd = (-1)%Z → non_finite v →
  (of_int 1 + of_int 3 * (v + of_int cd)
   + (of_int 9 / of_int 2) * ssq (v + of_int cd)
   - (of_int 3 / of_int 2) * ssq v)%sc = nan.
Proof.
  intros Hcd Hv. apply non_finite_cases in Hv.
  destruct Hcd as [-> | [-> | ->]]; destruct Hv as [-> | [-> | ->]];
    apply Prim2SF_inj; vm_compute; reflexivity.
Qed.

Lemma f_eq_at_nan wd (cd : Z) r v e :
  cd = 0%Z ∨ cd = 1%Z ∨ cd = (-1)%Z → non_finite v →
  f_eq_at wd cd r v e = nan.
Proof.
  intros Hcd Hv. unfold f_eq_at. cbn zeta.
  rewrite (bracket_nan cd v Hcd Hv). cbn [smul float_sc float_scalar].
  now rewrite mul_nan_r, mul_nan_l.
Qed.

(** Once the velocity of a site is an infinity or a NaN, one iteration
    leaves a NaN in both macroscopic fields of that site. *)
Lemma step_state_nan s i v :
  wf s → u s !! i = Some v → non_finite v →
  rho (step_state s) !! i = Some nan ∧ u (step_state s) !! i = Some nan.
Proof.
  intros Hwf Hv Hnf.
  destruct (wf_rows s Hwf) as (r0 & r1 & r2 & Hf & H0 & H1 & H2).
  destruct Hwf as (_ & _ & Hr & Hu & He & Hc & Hw).
  assert (Hi : (i < nx s)%nat) by (apply lookup_lt_Some in Hv; lia).
  destruct (lookup_lt_is_Some_2 (rho s) i) as [r Hri]; [lia|].
  destruct (lookup_lt_is_Some_2 (epsilon s) i) as [e Hei]; [lia|].
  destruct (lookup_lt_is_Some_2 r0 i) as [x0 Hx0]; [lia|].
  pose proof (f_eq_row_lookup s (of_int 1 / of_int 3)%sc 0 i r v e Hri Hv Hei) as He0.
  rewrite f_eq_at_nan in He0 by auto.
  pose proof (relax_lookup (omega s) _ _ i _ _ Hx0 He0) as Hg0.
  cbn [sadd smul float_sc float_scalar] in Hg0.
  rewrite mul_nan_r, add_nan_r in Hg0.
  set (g1 := flood_first (relax (omega s) r1 (f_eq_row s (of_int 1 / of_int 6)%sc 1))).
  set (g2 := flood_last (relax (omega s) r2 (f_eq_row s (of_int 1 / of_int 6)%sc (-1)))).
  assert (L1 : length g1 = nx s).
  { unfold g1. rewrite flood_first_length, relax_length, f_eq_row_length by done. lia. }
  assert (L2 : length g2 = nx s).
  { unfold g2. rewrite flood_last_length, relax_length, f_eq_row_length by done. lia. }
  destruct (lookup_lt_is_Some_2 g1 i) as [x1 Hx1]; [lia|].
  destruct (lookup_lt_is_Some_2 g2 i) as [x2 Hx2]; [lia|].
  unfold step_state, step_f. rewrite Hf. fold g1 g2.
  cbn [rho u with_u with_rho with_f]. split.
  - rewrite (macro_rho_lookup _ _ _ _ _ _ _ Hg0 Hx1 Hx2).
    cbn [sadd float_sc float_scalar]. now rewrite !add_nan_l.
  - rewrite (macro_u_lookup _ _ _ _ _ _ _ Hg0 Hx1 Hx2).
    cbn [sadd sdiv float_sc float_scalar]. now rewrite !add_nan_l, div_nan_r.
Qed.

Lemma run_steps_nan k : ∀ s i v,
  wf s → u s !! i = Some v → non_finite v →
  rho (run_steps (S k) s) !! i = Some nan ∧ u (run_steps (S k) s) !! i = Some nan.
Proof.
  induction k as [|k IH]; intros s i v Hwf Hv Hnf.
  - now apply step_state_nan with v.
  - destruct (step_state_nan s i v Hwf Hv Hnf) as [_ Hu'].
    change (run_steps (S (S k)) s) with (run_steps (S k) (step_state s)).
    apply IH with nan; [now apply step_state_wf | done | exact nan_non_finite].
Qed.

(** C9. [update_density_velocity] never raises and assigns
    [rho = f[0] + f[1] + f[2]] and [u = (f[1] - f[2]) / rho] whatever the
    values are; where the new density is a zero the new velocity is an
    infinity or a NaN; and a site whose velocity is an infinity or a NaN
    holds a NaN in both [rho] and [u] after every later iteration of the
    time loop, none of which raises. *)
Theorem update_divides_unguarded s :
  wf s →
  ∃ s', update_density_velocity s = Some (tt, s')
    ∧ rho s' = macro_rho (f s) ∧ u s' = macro_u (f s)
    ∧ (∀ (i : nat) r v,
         rho s' !! i = Some r → u s' !! i = Some v → is_zero r → non_finite v)
    ∧ (∀ (i : nat) v,
         u s' !! i = Some v → non_finite v →
         ∀ k : nat, ∃ s'',
           steps (S k) s' = Some (tt, s'')
           ∧ rho s'' !! i = Some nan ∧ u s'' !! i = Some nan).
Proof.
  intros Hwf. pose proof (update_state_wf s Hwf) as Hwf'.
  destruct (wf_rows s Hwf) as (r0 & r1 & r2 & Hf & H0 & H1 & H2).
  eexists. split; [apply update_run_macro; now rewrite Hf|].
  cbn [rho u with_u with_rho]. do 2 (split; [reflexivity|]). split.
  - intros i r v Hr Hv Hz. rewrite Hf in Hr, Hv.
    assert (Hi : (i < nx s)%nat).
    { apply lookup_lt_Some in Hr.
      rewrite (macro_rho_length r0 r1 r2 (nx s)) in Hr by done. done. }
    destruct (lookup_lt_is_Some_2 r0 i) as [x0 Hx0]; [lia|].
    destruct (lookup_lt_is_Some_2 r1 i) as [x1 Hx1]; [lia|].
    destruct (lookup_lt_is_Some_2 r2 i) as [x2 Hx2]; [lia|].
    rewrite (macro_rho_lookup _ _ _ _ _ _ _ Hx0 Hx1 Hx2) in Hr.
    rewrite (macro_u_lookup _ _ _ _ _ _ _ Hx0 Hx1 Hx2) in Hv.
    injection Hr as <-. injection Hv as <-.
    now apply div_zero_non_finite.
  - intros i v Hv Hnf k. eexists. split; [now apply steps_run|].
    now apply run_steps_nan with v.
Qed.
End Floats.

#[local] Existing Instance stub_sc.

(** C9, at a freshly constructed solver: [f = 0] makes the new density 0. *)
Lemma update_divides_unguarded_fresh :
  wf fresh2
  ∧ ∃ s', update_density_velocity fresh2 = Some (tt, s')
      ∧ rho s' = macro_rho (f fresh2) ∧ u s' = macro_u (f fresh2)
      ∧ (∀ (i : nat) r v,
           rho s' !! i = Some r → u s' !! i = Some v → is_zero r → non_finite v)
      ∧ (∀ (i : nat) v,
           u s' !! i = Some v → non_finite v →
           ∀ k : nat, ∃ s'',
             steps (S k) s' = Some (tt, s'')
             ∧ rho s'' !! i = Some nan ∧ u s'' !! i = Some nan).
Proof.
  assert (Hwf : wf fresh2) by apply init_wf.
  split; [exact Hwf | exact (update_divides_unguarded exp_stub fresh2 Hwf)].
Defined.

(** The fresh binary64 solver after one [update_density_velocity]: zero
    density and a NaN velocity at both sites. *)
Lemma update_fresh2 :
  ∃ s', update_density_velocity fresh2 = Some (tt, s')
    ∧ rho s' = [0; 0]%float ∧ u s' = [nan; nan].
Proof. eexists. split; [reflexivity|]. split; vm_compute; reflexivity. Qed.

(** The end-to-end scenario in binary64 ([epsilon] stays 0, so [np.exp] is
    only ever applied to 0): density and velocity of an interior site after
    the five iterations. *)
Lemma scenario_binary64 :
  ∃ s' r v, evolve (new 10 5 1%float) = Some (tt, s')
    ∧ rho s' !! 5 = Some r ∧ u s' !! 5 = Some v
    ∧ (674 <? r)%float = true ∧ (r <? 675)%float = true
    ∧ (0.625 <? v)%float = true ∧ (v <? 0.75)%float = true.
Proof.
  do 3 eexists. split; [vm_compute; reflexivity|].
  repeat split; vm_compute; reflexivity.
Qed.

(** ** Further properties: shapes, frames and composition *)

Section Shapes.
Context `{Scalar T}.
Implicit Types s : solver T.
Local Open Scope sc_scope.

(** [collision] never raises on a well-shaped solver, keeps it well shaped
    and assigns nothing but [self.f]. *)
Theorem collision_keeps_shape s :
  wf s →
  ∃ s', collision s = Some (tt, s') ∧ wf s' ∧ s' = with_f (f s') s.
Proof.
  intros Hwf. destruct (wf_rows s Hwf) as (r0 & r1 & r2 & Hf & H0 & H1 & H2).
  destruct Hwf as (_ & _ & Hr & Hu & He & Hc & Hw).
  eexists. split; [exact (collision_run s r0 r1 r2 Hf Hc Hw)|].
  split; [|reflexivity].
  eapply wf_intro; [cbn; reflexivity | cbn ..]; try done;
    rewrite relax_length, f_eq_row_length by done; lia.
Qed.

(** [streaming] never raises on a well-shaped solver, keeps it well shaped
    and assigns nothing but [self.f]. *)
Theorem streaming_keeps_shape s :
  wf s →
  ∃ s', streaming s = Some (tt, s') ∧ wf s' ∧ s' = with_f (f s') s.
Proof.
  intros Hwf.
  destruct (streaming_wf_run s Hwf) as (r0 & r1 & r2 & Hf & H0 & H1 & H2 & Hrun).
  destruct Hwf as (_ & _ & Hr & Hu & He & Hc & Hw).
  eexists. split; [exact Hrun|]. split; [|reflexivity].
  eapply wf_intro; [cbn; reflexivity | cbn ..]; try done.
  - now rewrite flood_first_length.
  - now rewrite flood_last_length.
Qed.

(** [update_density_velocity] never raises on a well-shaped solver, keeps it
    well shaped and assigns nothing but [self.rho] and [self.u]. *)
Theorem update_keeps_shape s :
  wf s →
  ∃ s', update_density_velocity s = Some (tt, s') ∧ wf s'
    ∧ s' = with_u (u s') (with_rho (rho s') s).
Proof.
  intros Hwf. eexists. split.
  - apply update_run_macro. now destruct Hwf.
  - split; [now apply update_state_wf | reflexivity].
Qed.


Lemma run_steps_frame k : ∀ s,
  run_steps k s
  = with_u (u (run_steps k s)) (with_rho (rho (run_steps k s))
      (with_f (f (run_steps k s)) s)).
Proof.
  induction k as [|k IH]; intros s; [now destruct s|].
  cbn [run_steps]. rewrite (IH (step_state s)) at 1. reflexivity.
Qed.

(** [evolve] never raises on a well-shaped solver, returns a well-shaped
    solver and assigns nothing but [self.f], [self.rho] and [self.u]: the
    sizes, the step count, [omega], [dx], [dt], [epsilon], [c] and [w] are
    what they were. *)
Theorem evolve_keeps_shape s :
  wf s →
  ∃ s', evolve s = Some (tt, s') ∧ wf s'
    ∧ s' = with_u (u s') (with_rho (rho s') (with_f (f s') s)).
Proof.
  intros Hwf. exists (run_steps (Z.to_nat (nt s)) s). split.
  - rewrite evolve_steps. now apply steps_run.
  - split; [now apply run_steps_wf | apply run_steps_frame].
Qed.


(** A solver as [__init__] builds it, for any site count (zero included),
    any step count and any [omega], [dx], [dt], runs [evolve] to completion
    without an [IndexError] and keeps its [nx] sites. *)
Theorem constructed_solver_evolves n k om hx ht :
  ∃ s', evolve (__init__ n k om hx ht) = Some (tt, s')
    ∧ wf s' ∧ nx s' = n
    ∧ length (rho s') = n ∧ length (u s') = n.
Proof.
  pose proof (init_wf n k om hx ht) as Hwf0.
  set (s0 := __init__ n k om hx ht) in *.
  exists (run_steps (Z.to_nat (nt s0)) s0).
  split; [rewrite evolve_steps; now apply steps_run|].
  pose proof (run_steps_wf (Z.to_nat (nt s0)) s0 Hwf0) as Hwf.
  split; [exact Hwf|].
  assert (Hn : nx (run_steps (Z.to_nat (nt s0)) s0) = n)
    by now rewrite run_steps_frame.
  destruct Hwf as (_ & _ & Hr & Hu & _). rewrite Hn in Hr, Hu. done.
Qed.
End Shapes.

(** [collision_keeps_shape], at a concrete state. *)
Lemma collision_keeps_shape_demo :
  wf demo ∧ ∃ s', collision demo = Some (tt, s') ∧ wf s' ∧ s' = with_f (f s') demo.
Proof. split; [exact demo_wf | exact (collision_keeps_shape demo demo_wf)]. Defined.

(** [streaming_keeps_shape], at a concrete state. *)
Lemma streaming_keeps_shape_demo :
  wf demo ∧ ∃ s', streaming demo = Some (tt, s') ∧ wf s' ∧ s' = with_f (f s') demo.
Proof. split; [exact demo_wf | exact (streaming_keeps_shape demo demo_wf)]. Defined.

(** [update_keeps_shape], at a concrete state. *)
Lemma update_keeps_shape_demo :
  wf demo
  ∧ ∃ s', update_density_velocity demo = Some (tt, s') ∧ wf s'
      ∧ s' = with_u (u s') (with_rho (rho s') demo).
Proof. split; [exact demo_wf | exact (update_keeps_shape demo demo_wf)]. Defined.


(** [evolve_keeps_shape], at a concrete state. *)
Lemma evolve_keeps_shape_scenario :
  wf scenario
  ∧ ∃ s', evolve scenario = Some (tt, s') ∧ wf s'
      ∧ s' = with_u (u s') (with_rho (rho s') (with_f (f s') scenario)).
Proof. split; [exact scenario_wf | exact (evolve_keeps_shape scenario scenario_wf)]. Defined.

(** ** Further properties: repetition, edges and errors *)

Section Repeats.
Context `{Scalar T}.
Implicit Types s : solver T.

Lemma flood_first_twice (row : list T) : flood_first (flood_first row) = flood_first row.
Proof.
  destruct row as [|x row]; [done|].
  unfold flood_first at 2 3. now rewrite flood_first_replicate.
Qed.

Lemma flood_last_twice (row : list T) : flood_last (flood_last row) = flood_last row.
Proof.
  unfold flood_last at 2 3. destruct (last row); [|done].
  now rewrite flood_last_replicate.
Qed.

(** A second call to [streaming] changes nothing: after one call rows 1 and
    2 are constant, and flooding a constant row gives the same row. *)
Theorem streaming_twice s :
  wf s →
  ∃ s', streaming s = Some (tt, s') ∧ streaming s' = Some (tt, s').
Proof.
  intros Hwf.
  destruct (streaming_wf_run s Hwf) as (r0 & r1 & r2 & Hf & H0 & H1 & H2 & Hrun).
  eexists. split; [exact Hrun|].
  rewrite (streaming_run _ r0 (flood_first r1) (flood_last r2)); cbn.
  - now rewrite flood_first_twice, flood_last_twice.
  - reflexivity.
  - now rewrite flood_first_length.
  - now rewrite flood_last_length.
Qed.

(** With at most one site both loops of [streaming] are empty: the call
    returns the solver as it was. *)
Theorem streaming_single_site s :
  wf s → nx s ≤ 1 → streaming s = Some (tt, s).
Proof.
  intros Hwf Hn.
  destruct (streaming_wf_run s Hwf) as (r0 & r1 & r2 & Hf & H0 & H1 & H2 & Hrun).
  rewrite Hrun. do 2 f_equal. rewrite <- (with_f_same s) at 2. rewrite Hf.
  do 3 f_equal.
  - destruct r1 as [|x [|y r1]]; cbn in *; [done | done | lia].
  - f_equal. destruct r2 as [|x [|y r2]]; cbn in *; [done | done | lia].
Qed.

Lemma f_get_raise_col s d i row :
  f s !! d = Some row → length row ≤ i → f_get d i s = None.
Proof.
  intros Hd Hi. unfold f_get, mbind, M_bind, gets, index.
  rewrite Hd. now rewrite (lookup_ge_None_2 row i Hi).
Qed.

Lemma f_set_raise_col s d i row x :
  f s !! d = Some row → length row ≤ i → f_set d i x s = None.
Proof.
  intros Hd Hi. unfold f_set, mbind, M_bind, gets, index, store.
  rewrite Hd. now rewrite (lookup_ge_None_2 row i Hi).
Qed.

Lemma bind_raise {A B} (m : M A) (k : A → M B) s :
  m s = None → (m ≫= k) s = None.
Proof. intros Hm. unfold mbind, M_bind. now rewrite Hm. Qed.

(** The ascending loop raises as soon as it reaches the end of a row that
    is shorter than the index range. *)
Lemma stream_up_raise k : ∀ a s row,
  1 ≤ a → 1 ≤ k → length row < a + k →
  f s !! 1 = Some row →
  for_each (seq a k) (λ i, x ← f_get 1 (i - 1); f_set 1 i x) s = None.
Proof.
  induction k as [|k IH]; intros a s row Ha Hk Hlen Hrow; [lia|].
  cbn [seq for_each].
  destruct (decide (length row ≤ a - 1)) as [Hshort|Hlong].
  { apply bind_raise, bind_raise. now apply f_get_raise_col with row. }
  destruct (lookup_lt_is_Some_2 row (a - 1)) as [v Hv]; [lia|].
  destruct (decide (length row ≤ a)) as [Hend|Hin].
  { apply bind_raise. rewrite (bind_run _ _ s v s) by now apply f_get_run with row.
    now apply f_set_raise_col with row. }
  rewrite (bind_run _ _ s tt (with_f (<[1 := <[a := v]> row]> (f s)) s)).
  2:{ rewrite (bind_run _ _ s v s) by now apply f_get_run with row.
      apply f_set_run; [done | lia]. }
  assert (Hl1 : 1 < length (f s)) by (apply lookup_lt_is_Some; eauto).
  apply (IH (S a) _ (<[a := v]> row)); [lia | lia | rewrite length_insert; lia |].
  cbn [f with_f]. now apply list_lookup_insert_eq.
Qed.

(** When [nx] is at least 2 and exceeds the length of row 1 or of row 2 of
    [f], [streaming] raises an [IndexError]. *)
Theorem streaming_raises_on_short_rows s r0 r1 r2 :
  f s = [r0; r1; r2] → 2 ≤ nx s →
  length r1 < nx s ∨ length r2 < nx s →
  streaming s = None.
Proof.
  intros Hf Hn Hshort. unfold streaming.
  rewrite (bind_run _ _ s (nx s) s) by done.
  rewrite range_1_of_nat, range_down_of_nat.
  destruct (decide (length r1 < nx s)) as [H1|H1].
  { apply bind_raise. apply stream_up_raise with r1; [lia | lia | lia |].
    now rewrite Hf. }
  destruct Hshort as [?|H2]; [lia|].
  destruct (lookup_lt_is_Some_2 r1 0) as [v Hv]; [lia|].
  erewrite bind_run.
  2:{ apply (stream_up_run (nx s - 1) 1 s r1 v); [lia | lia | now rewrite Hf | done]. }
  replace (nx s - 1) with (S (nx s - 2)) by lia.
  rewrite seq_S, rev_app_distr. cbn [rev app for_each Nat.add].
  apply bind_raise, bind_raise.
  apply f_get_raise_col with r2; [|lia].
  cbn [f with_f]. rewrite Hf. reflexivity.
Qed.

(** A second call to [update_density_velocity] changes nothing. *)
Theorem update_twice s :
  length (f s) = 3 →
  ∃ s', update_density_velocity s = Some (tt, s')
    ∧ update_density_velocity s' = Some (tt, s').
Proof.
  intros Hlen. eexists. split; [now apply update_run_macro|].
  now rewrite update_run_macro.
Qed.

(** A step count that is zero or negative is no error: [evolve] returns the
    solver as it was. *)
Theorem evolve_without_steps s :
  (nt s ≤ 0)%Z → evolve s = Some (tt, s).
Proof.
  intros Hnt. rewrite evolve_steps.
  replace (Z.to_nat (nt s)) with 0 by lia. reflexivity.
Qed.

Lemma run_steps_nt k : ∀ s, nt (run_steps k s) = nt s.
Proof. intros s. now rewrite run_steps_frame. Qed.

Lemma run_steps_add a : ∀ b s, run_steps (a + b) s = run_steps b (run_steps a s).
Proof. induction a as [|a IH]; intros b s; [done|]. cbn [Nat.add run_steps]. apply IH. Qed.

(** [evolve] does not use up its step count: a second call runs [nt] more
    iterations from where the first one ended, so two calls amount to
    [2 * nt] iterations. *)
Theorem evolve_twice s :
  wf s →
  ∃ s1 s2, evolve s = Some (tt, s1) ∧ evolve s1 = Some (tt, s2)
    ∧ steps (2 * Z.to_nat (nt s)) s = Some (tt, s2).
Proof.
  intros Hwf. set (k := Z.to_nat (nt s)).
  exists (run_steps k s), (run_steps (k + k) s).
  split; [rewrite evolve_steps; now apply steps_run|]. split.
  - rewrite evolve_steps, run_steps_nt. fold k.
    rewrite steps_run by now apply run_steps_wf. now rewrite run_steps_add.
  - replace (2 * k) with (k + k) by lia. now apply steps_run.
Qed.
End Repeats.

(** [streaming_twice], at a concrete state. *)
Lemma streaming_twice_demo :
  wf demo ∧ ∃ s', streaming demo = Some (tt, s') ∧ streaming s' = Some (tt, s').
Proof. split; [exact demo_wf | exact (streaming_twice demo demo_wf)]. Defined.

(** [streaming_single_site], at a solver with one site. *)
Lemma streaming_single_site_one :
  wf (new 1 1 1%R) ∧ nx (new 1 1 1%R) ≤ 1
  ∧ streaming (new 1 1 1%R) = Some (tt, new 1 1 1%R).
Proof.
  assert (Hwf : wf (new 1 1 1%R)) by apply init_wf.
  assert (Hn : nx (new 1 1 1%R) ≤ 1) by (cbn; lia).
  split; [exact Hwf|]. split; [exact Hn|].
  exact (streaming_single_site (new 1 1 1%R) Hwf Hn).
Defined.

(** [streaming_raises_on_short_rows], at [nx = 3] over rows of length 2. *)
Lemma streaming_raises_on_short_rows_example :
  f short_rows = [[1; 2]; [3; 4]; [5; 6]]%R ∧ 2 ≤ nx short_rows
  ∧ (length [3; 4]%R < nx short_rows ∨ length [5; 6]%R < nx short_rows)
  ∧ streaming short_rows = None.
Proof.
  assert (Hn : 2 ≤ nx short_rows) by (cbn; lia).
  assert (Hs : length [3; 4]%R < nx short_rows ∨ length [5; 6]%R < nx short_rows)
    by (left; cbn; lia).
  split; [reflexivity|]. split; [exact Hn|]. split; [exact Hs|].
  exact (streaming_raises_on_short_rows short_rows _ _ _ eq_refl Hn Hs).
Defined.

(** [update_twice], at a concrete state. *)
Lemma update_twice_demo :
  length (f demo) = 3
  ∧ ∃ s', update_density_velocity demo = Some (tt, s')
      ∧ update_density_velocity s' = Some (tt, s').
Proof. split; [reflexivity | exact (update_twice demo eq_refl)]. Defined.

(** [evolve_without_steps], at [nt = -2]. *)
Lemma evolve_without_steps_negative :
  (nt negative_nt ≤ 0)%Z ∧ evolve negative_nt = Some (tt, negative_nt).
Proof.
  assert (Hnt : (nt negative_nt ≤ 0)%Z) by (cbn; lia).
  split; [exact Hnt | exact (evolve_without_steps negative_nt Hnt)].
Defined.

(** [evolve_twice], at the end-to-end scenario. *)
Lemma evolve_twice_scenario :
  wf scenario
  ∧ ∃ s1 s2, evolve scenario = Some (tt, s1) ∧ evolve s1 = Some (tt, s2)
      ∧ steps (2 * Z.to_nat (nt scenario)) scenario = Some (tt, s2).
Proof. split; [exact scenario_wf | exact (evolve_twice scenario scenario_wf)]. Defined.

(** ** Further properties in exact arithmetic *)

Section RealsFurther.
Implicit Types s : solver R.
Local Open Scope R_scope.

Lemma f_eq_at_exp wd cd r v a b :
  f_eq_at wd cd r v b = exp (b - a) * f_eq_at wd cd r v a.
Proof.
  unfold f_eq_at. cbn.
  replace (exp b) with (exp (b - a) * exp a)
    by (rewrite <- exp_plus; f_equal; lra).
  ring.
Qed.

(** Replacing the binding energy through [set_epsilon] rescales every
    equilibrium population of site [i] by [exp(e'[i] - epsilon[i])], and
    touches nothing else of the equilibrium. *)
Theorem binding_energy_rescales_equilibrium s (e' : list R) :
  wf s → length e' = nx s →
  ∃ m m',
    equilibrium_distribution s = Some (m, s)
    ∧ (set_epsilon e';; equilibrium_distribution) s = Some (m', with_epsilon e' s)
    ∧ ∀ (d i : nat) y a b,
        at2 m d i = Some y → epsilon s !! i = Some a → e' !! i = Some b →
        at2 m' d i = Some (exp (b - a) * y).
Proof.
  intros Hwf He'. pose proof Hwf as (_ & _ & Hr & Hu & He & Hc & Hw).
  exists (f_eq_mat s), (f_eq_mat (with_epsilon e' s)).
  split; [now apply equilibrium_run|]. split.
  { rewrite (bind_run _ _ s tt (with_epsilon e' s)) by reflexivity.
    now apply equilibrium_run. }
  intros d i y a b Hy Ha Hb.
  assert (Hi : (i < nx s)%nat) by (apply lookup_lt_Some in Ha; lia).
  destruct (lookup_lt_is_Some_2 (rho s) i) as [r Hri]; [lia|].
  destruct (lookup_lt_is_Some_2 (u s) i) as [v Hvi]; [lia|].
  assert (Hrow : ∀ wd cd,
    f_eq_row s wd cd !! i = Some y →
    f_eq_row (with_epsilon e' s) wd cd !! i = Some (exp (b - a) * y)).
  { intros wd cd Hrow.
    rewrite (f_eq_row_lookup s wd cd i r v a Hri Hvi Ha) in Hrow.
    injection Hrow as <-.
    rewrite (f_eq_row_lookup (with_epsilon e' s) wd cd i r v b Hri Hvi Hb).
    now rewrite (f_eq_at_exp wd cd r v a b). }
  unfold at2, f_eq_mat in *.
  destruct d as [|[|[|d]]]; cbn in Hy |- *; [now apply Hrow .. | discriminate].
Qed.

Lemma run_steps_uniform_from_rest k : ∀ s r v,
  uniform r v s → 0 < r → 0 <= v → v <= 1 →
  ∃ r' v', uniform r' v' (run_steps k s)
    ∧ (13 / 6) ^ k * r <= r' ∧ 0 <= v' ∧ v' <= 1.
Proof.
  induction k as [|k IH]; intros s r v Hun Hr Hv0 Hv1.
  - exists r, v. split; [exact Hun|]. cbn. lra.
  - pose proof (uniform_step r v s Hun) as Hun'.
    destruct (uniform_growth r v) as (Hg & Hl & Hh); [lra ..|].
    cbn zeta in Hun', Hg, Hl, Hh.
    destruct (IH _ _ _ Hun') as (r'' & v'' & Hun'' & Hr'' & Hv0'' & Hv1'');
      [lra | lra | lra |].
    exists r'', v''. cbn [run_steps]. split; [exact Hun''|].
    assert (0 <= (13 / 6) ^ k) by (apply pow_le; lra).
    cbn [pow]. repeat split; [nra | lra | lra].
Qed.

(** Under full relaxation ([omega = 1]) and zero binding energy, a solver
    whose density [r > 0] and velocity [v] in [0, 1] are the same at every
    site is returned by [evolve] with a density that is again the same at
    every site and at least [(13/6)^nt * r]: the density is never conserved,
    it grows geometrically with the number of steps. *)
Theorem uniform_density_grows s r v :
  uniform r v s → 0 < r → 0 <= v → v <= 1 →
  ∃ s' r',
    evolve s = Some (tt, s')
    ∧ rho s' = replicate (nx s) r'
    ∧ (13 / 6) ^ Z.to_nat (nt s) * r <= r'.
Proof.
  intros Hun Hr Hv0 Hv1.
  destruct (run_steps_uniform_from_rest (Z.to_nat (nt s)) s r v Hun Hr Hv0 Hv1)
    as (r' & v' & Hun' & Hr' & _).
  exists (run_steps (Z.to_nat (nt s)) s), r'. split.
  { rewrite evolve_steps. apply steps_run. now destruct Hun. }
  split; [|exact Hr'].
  destruct Hun' as (_ & _ & Hrho & _). now rewrite run_steps_nx in Hrho.
Qed.
End RealsFurther.

(** [binding_energy_rescales_equilibrium], at a concrete state. *)
Lemma binding_energy_rescales_equilibrium_demo :
  wf demo ∧ length [1; 2; 3]%R = nx demo
  ∧ ∃ m m',
      equilibrium_distribution demo = Some (m, demo)
      ∧ (set_epsilon [1; 2; 3]%R;; equilibrium_distribution) demo
        = Some (m', with_epsilon [1; 2; 3]%R demo)
      ∧ ∀ (d i : nat) y a b,
          at2 m d i = Some y → epsilon demo !! i = Some a → [1; 2; 3]%R !! i = Some b →
          at2 m' d i = Some (exp (b - a) * y)%R.
Proof.
  split; [exact demo_wf|]. split; [reflexivity|].
  exact (binding_energy_rescales_equilibrium demo [1; 2; 3]%R demo_wf eq_refl).
Defined.

(** [uniform_density_grows], at the end-to-end scenario. *)
Lemma uniform_density_grows_scenario :
  uniform 1 0 scenario ∧ (0 < 1)%R ∧ (0 <= 0)%R ∧ (0 <= 1)%R
  ∧ ∃ s' r',
      evolve scenario = Some (tt, s')
      ∧ rho s' = replicate (nx scenario) r'
      ∧ ((13 / 6) ^ Z.to_nat (nt scenario) * 1 <= r')%R.
Proof.
  assert (H1 : (0 < 1)%R) by lra.
  assert (H2 : (0 <= 0)%R) by lra.
  assert (H3 : (0 <= 1)%R) by lra.
  split; [exact scenario_uniform|]. do 3 (split; [done|]).
  exact (uniform_density_grows scenario 1 0 scenario_uniform H1 H2 H3).
Defined.

(** ** Further properties in binary64 *)

Section FloatsFurther.
Variable np_exp : float → float.
#[local] Instance float_here : Scalar float := float_sc np_exp.
Implicit Types s : solver float.
Local Open Scope float_scope.

(** A non-finite velocity at either end of the lattice poisons the whole
    lattice in one iteration: [streaming] carries the NaN population of
    site 0 (direction 1) or of site [nx-1] (direction 2) to every site, and
    [update_density_velocity] turns it into a NaN density and a NaN
    velocity everywhere. *)
Theorem edge_nan_floods_lattice s (i0 : nat) v :
  wf s → i0 = 0%nat ∨ i0 = (nx s - 1)%nat →
  u s !! i0 = Some v → non_finite v →
  ∃ s', step s = Some (tt, s')
    ∧ ∀ i : nat, (i < nx s)%nat → rho s' !! i = Some nan ∧ u s' !! i = Some nan.
Proof.
  intros Hwf Hedge Hv Hnf. exists (step_state s).
  split; [now apply step_run|].
  destruct (wf_rows s Hwf) as (r0 & r1 & r2 & Hf & H0 & H1 & H2).
  destruct Hwf as (_ & _ & Hr & Hu & He & Hc & Hw).
  assert (Hi0 : (i0 < nx s)%nat) by (apply lookup_lt_Some in Hv; lia).
  destruct (lookup_lt_is_Some_2 (rho s) i0) as [r Hri]; [lia|].
  destruct (lookup_lt_is_Some_2 (epsilon s) i0) as [e Hei]; [lia|].
  set (g0 := relax (omega s) r0 (f_eq_row s (of_int 1 / of_int 3)%sc 0)).
  set (h1 := relax (omega s) r1 (f_eq_row s (of_int 1 / of_int 6)%sc 1)).
  set (h2 := relax (omega s) r2 (f_eq_row s (of_int 1 / of_int 6)%sc (-1))).
  assert (L0 : length g0 = nx s).
  { unfold g0. rewrite relax_length, f_eq_row_length by done. lia. }
  assert (L1 : length h1 = nx s).
  { unfold h1. rewrite relax_length, f_eq_row_length by done. lia. }
  assert (L2 : length h2 = nx s).
  { unfold h2. rewrite relax_length, f_eq_row_length by done. lia. }
  assert (Hnan : ∀ (rw : list float) wd cd,
    cd = 0%Z ∨ cd = 1%Z ∨ cd = (-1)%Z → length rw = nx s →
    relax (omega s) rw (f_eq_row s wd cd) !! i0 = Some nan).
  { intros rw wd cd Hcd Hlen.
    destruct (lookup_lt_is_Some_2 rw i0) as [x Hx]; [lia|].
    pose proof (f_eq_row_lookup s wd cd i0 r v e Hri Hv Hei) as Hrow.
    pose proof (f_eq_at_nan np_exp wd cd r v e Hcd Hnf) as Hn.
    change (float_sc np_exp) with float_here in Hn. rewrite Hn in Hrow.
    rewrite (relax_lookup (omega s) _ _ i0 _ _ Hx Hrow).
    cbn [sadd smul float_here float_sc float_scalar].
    now rewrite mul_nan_r, add_nan_r. }
  intros i Hi.
  destruct (lookup_lt_is_Some_2 g0 i) as [x0 Hx0]; [lia|].
  unfold step_state, step_f. rewrite Hf. fold g0 h1 h2.
  cbn [rho u with_u with_rho with_f].
  destruct Hedge as [-> | ->].
  - assert (Hg1 : flood_first h1 !! i = Some nan).
    { apply flood_first_lookup; [apply Hnan; auto | lia]. }
    destruct (lookup_lt_is_Some_2 (flood_last h2) i) as [x2 Hx2];
      [rewrite flood_last_length; lia|].
    rewrite (macro_rho_lookup _ _ _ _ _ _ _ Hx0 Hg1 Hx2).
    rewrite (macro_u_lookup _ _ _ _ _ _ _ Hx0 Hg1 Hx2).
    cbn [sadd ssub sdiv float_here float_sc float_scalar].
    now rewrite add_nan_r, add_nan_l, div_nan_r.
  - assert (Hg2 : flood_last h2 !! i = Some nan).
    { apply flood_last_lookup; [rewrite L2; apply Hnan; auto | lia]. }
    destruct (lookup_lt_is_Some_2 (flood_first h1) i) as [x1 Hx1];
      [rewrite flood_first_length; lia|].
    rewrite (macro_rho_lookup _ _ _ _ _ _ _ Hx0 Hx1 Hg2).
    rewrite (macro_u_lookup _ _ _ _ _ _ _ Hx0 Hx1 Hg2).
    cbn [sadd ssub sdiv float_here float_sc float_scalar].
    now rewrite add_nan_r, div_nan_r.
Qed.
End FloatsFurther.

Lemma poisoned_wf : wf poisoned.
Proof. eapply wf_intro; [cbn; reflexivity | cbn ..]; reflexivity. Qed.

(** [edge_nan_floods_lattice], at a solver whose site 0 holds a NaN velocity. *)
Lemma edge_nan_floods_lattice_poisoned :
  wf poisoned ∧ (0 = 0 ∨ 0 = nx poisoned - 1)
  ∧ u poisoned !! 0 = Some nan ∧ non_finite nan
  ∧ ∃ s', step poisoned = Some (tt, s')
      ∧ ∀ i : nat, i < nx poisoned → rho s' !! i = Some nan ∧ u s' !! i = Some nan.
Proof.
  assert (He : 0 = 0 ∨ 0 = nx poisoned - 1) by now left.
  assert (Hu : u poisoned !! 0 = Some nan) by reflexivity.
  split; [exact poisoned_wf|]. split; [exact He|]. split; [exact Hu|].
  split; [exact I|].
  exact (edge_nan_floods_lattice exp_stub poisoned 0 nan poisoned_wf He Hu I).
Defined.

(** ** binary64: relaxation and the macroscopic relation *)

Lemma shr_1_even p :
  shr_1 {| shr_m := Z.pos p~0; shr_r := false; shr_s := false |}
  = {| shr_m := Z.pos p; shr_r := false; shr_s := false |}.
Proof. reflexivity. Qed.

(** the product of [1.0 = 2^52 * 2^-52] and a representable number rounds
    to that number *)
Lemma round_one_times s m e :
  bounded prec emax m e = true →
  binary_round_aux prec emax s (Z.pos (4503599627370496 * m)) (-52 + e) loc_Exact
  = S754_finite s m e.
Proof.
  unfold bounded, canonical_mantissa. intros Hb.
  apply andb_prop in Hb. destruct Hb as [Hc He].
  apply Z.eqb_eq in Hc.
  unfold binary_round_aux, shr_fexp.
  assert (Hd : (Zdigits2 (Z.pos (4503599627370496 * m)) + (-52 + e)
                = Z.pos (digits2_pos m) + e)%Z).
  { cbv [Pos.mul]. cbn [Zdigits2 digits2_pos]. lia. }
  rewrite Hd, Hc.
  replace (e - (-52 + e))%Z with 52%Z by lia.
  cbv [Pos.mul]. cbn [shr shr_record_of_loc SpecFloat.iter_pos]. rewrite !shr_1_even.
  cbn [shr_m shr_r shr_s loc_of_shr_record round_nearest_even].
  replace (-52 + e + 52)%Z with e by lia.
  cbn [Zdigits2]. rewrite Hc, Z.sub_diag. cbn [shr shr_record_of_loc shr_m].
  now rewrite He.
Qed.

Lemma mul_one_l (x : float) : (1 * x)%float = x.
Proof.
  apply Prim2SF_inj. rewrite mul_spec.
  change (Prim2SF 1) with (S754_finite false 4503599627370496 (-52)).
  pose proof (Prim2SF_valid x) as Hv.
  destruct (Prim2SF x) as [sg|sg| |sg m e]; try reflexivity.
  cbn [SF64mul SFmul xorb]. now apply round_one_times.
Qed.

Lemma zero_mul_finite (x : float) : ¬ non_finite x → is_zero (0 * x)%float.
Proof.
  unfold non_finite, is_zero. rewrite mul_spec.
  change (Prim2SF 0) with (S754_zero false).
  destruct (Prim2SF x); cbn; tauto.
Qed.

Lemma zero_mul_non_finite (x : float) : non_finite x → (0 * x)%float = nan.
Proof.
  unfold non_finite. intros Hx. apply Prim2SF_inj. rewrite mul_spec.
  change (Prim2SF 0) with (S754_zero false).
  destruct (Prim2SF x); cbn in *; tauto.
Qed.

Lemma is_zero_dec (x : float) : is_zero x ∨ ¬ is_zero x.
Proof. unfold is_zero. destruct (Prim2SF x); tauto. Qed.

Lemma zero_add_nonzero (z x : float) : is_zero z → ¬ is_zero x → (z + x)%float = x.
Proof.
  unfold is_zero. intros Hz Hx. apply Prim2SF_inj. rewrite add_spec.
  destruct (Prim2SF z); try done. destruct (Prim2SF x); cbn in *; tauto.
Qed.

Lemma add_zero_nonzero (x z : float) : is_zero z → ¬ is_zero x → (x + z)%float = x.
Proof.
  unfold is_zero. intros Hz Hx. apply Prim2SF_inj. rewrite add_spec.
  destruct (Prim2SF z); try done. destruct (Prim2SF x); cbn in *; tauto.
Qed.

Lemma zero_add_zero (z x : float) : is_zero z → is_zero x → is_zero (z + x)%float.
Proof.
  unfold is_zero. rewrite add_spec. intros Hz Hx.
  destruct (Prim2SF z) as [sz| | |]; try done.
  destruct (Prim2SF x) as [sx| | |]; try done. now destruct sz, sx.
Qed.

(** adding a zero on the left changes a sign of zero at most *)
Lemma zero_add (z x : float) : is_zero z → same_value (z + x)%float x.
Proof.
  intros Hz. destruct (is_zero_dec x) as [Hx|Hx].
  - right. split; [now apply zero_add_zero | done].
  - left. now apply zero_add_nonzero.
Qed.

(** adding a zero on the right changes a sign of zero at most *)
Lemma add_zero (x z : float) : is_zero z → same_value (x + z)%float x.
Proof.
  intros Hz. destruct (is_zero_dec x) as [Hx|Hx].
  - right. split; [now apply zero_add_zero | done].
  - left. now apply add_zero_nonzero.
Qed.

(** a sum started from [0.0] is the plain sum up to the sign of a zero *)
Lemma sum_from_zero (x0 x1 x2 : float) :
  same_value (0 + x0 + x1 + x2)%float (x0 + x1 + x2)%float.
Proof.
  assert (Hz : is_zero 0%float) by exact I.
  destruct (is_zero_dec x0) as [H0|H0].
  2:{ left. now rewrite (zero_add_nonzero 0 x0). }
  pose proof (zero_add_zero 0 x0 Hz H0) as Ha.
  destruct (is_zero_dec x1) as [H1|H1].
  2:{ left. now rewrite (zero_add_nonzero (0 + x0) x1), (zero_add_nonzero x0 x1). }
  pose proof (zero_add_zero (0 + x0) x1 Ha H1) as Hb.
  pose proof (zero_add_zero x0 x1 H0 H1) as Hb'.
  destruct (is_zero_dec x2) as [H2|H2].
  2:{ left. now rewrite (zero_add_nonzero (0 + x0 + x1) x2), (zero_add_nonzero (x0 + x1) x2). }
  right. split; now apply zero_add_zero.
Qed.

(** full relaxation at one cell: [(1 - 1) * x + 1 * e] *)
Lemma relax_full_b64 (x e : float) :
  (¬ non_finite x → same_value ((1 - 1) * x + 1 * e)%float e)
  ∧ (non_finite x → ((1 - 1) * x + 1 * e)%float = nan).
Proof.
  change (1 - 1)%float with 0%float. rewrite mul_one_l. split; intros Hx.
  - apply zero_add. now apply zero_mul_finite.
  - rewrite zero_mul_non_finite by done. apply add_nan_l.
Qed.

(** no relaxation at one cell: [(1 - 0) * x + 0 * e] *)
Lemma relax_none_b64 (x e : float) :
  (¬ non_finite e → same_value ((1 - 0) * x + 0 * e)%float x)
  ∧ (non_finite e → ((1 - 0) * x + 0 * e)%float = nan).
Proof.
  change (1 - 0)%float with 1%float. rewrite mul_one_l. split; intros He.
  - apply add_zero. now apply zero_mul_finite.
  - rewrite zero_mul_non_finite by done. apply add_nan_r.
Qed.


Section FloatsCollision.
Variable np_exp : float → float.
#[local] Instance float_coll : Scalar float := float_scalar np_exp.
Implicit Types s : solver float.
Local Open Scope float_scope.

Lemma collision_cells_b64 s :
  wf s →
  ∃ f_eq s',
    equilibrium_distribution s = Some (f_eq, s)
    ∧ collision s = Some (tt, s')
    ∧ (∀ (d i : nat) x e, at2 (f s) d i = Some x → at2 f_eq d i = Some e →
         at2 (f s') d i = Some ((1 - omega s) * x + omega s * e))
    ∧ (∀ d i : nat, (d < 3)%nat → (i < nx s)%nat →
         ∃ x e, at2 (f s) d i = Some x ∧ at2 f_eq d i = Some e).
Proof.
  intros Hwf. destruct (wf_rows s Hwf) as (r0 & r1 & r2 & Hf & H0 & H1 & H2).
  destruct Hwf as (_ & _ & Hr & Hu & He & Hc & Hw).
  assert (Le : ∀ wd cd, length (f_eq_row s wd cd) = nx s).
  { intros. now apply f_eq_row_length. }
  exists (f_eq_mat s). eexists.
  split; [now apply equilibrium_run|].
  split; [exact (collision_run s r0 r1 r2 Hf Hc Hw)|].
  cbn [f with_f]. rewrite Hf. unfold at2, f_eq_mat. split.
  - intros d i x e Hx Hfe.
    destruct d as [|[|[|d]]]; cbn in Hx, Hfe |- *; [| | |discriminate];
      exact (relax_lookup (omega s) _ _ _ _ _ Hx Hfe).
  - intros d i Hd Hi.
    destruct d as [|[|[|d]]]; [| | |lia]; cbn.
    + destruct (lookup_lt_is_Some_2 r0 i) as [x Hx]; [lia|].
      destruct (lookup_lt_is_Some_2 (f_eq_row s (of_int 1 / of_int 3)%sc 0) i) as [e Hfe];
        [rewrite Le; lia|]. now exists x, e.
    + destruct (lookup_lt_is_Some_2 r1 i) as [x Hx]; [lia|].
      destruct (lookup_lt_is_Some_2 (f_eq_row s (of_int 1 / of_int 6)%sc 1) i) as [e Hfe];
        [rewrite Le; lia|]. now exists x, e.
    + destruct (lookup_lt_is_Some_2 r2 i) as [x Hx]; [lia|].
      destruct (lookup_lt_is_Some_2 (f_eq_row s (of_int 1 / of_int 6)%sc (-1)) i) as [e Hfe];
        [rewrite Le; lia|]. now exists x, e.
Qed.

(** C6 (as amended). In binary64 [collision] sets every [f[d,i]] to
    [(1-omega)*f[d,i] + omega*f_eq[d,i]], with [f_eq] the matrix that
    [equilibrium_distribution] returns in the same state.  With [omega = 1]
    the new [f[d,i]] is [f_eq[d,i]], up to the sign of a zero, wherever the
    old [f[d,i]] is finite, and a NaN where the old [f[d,i]] is an infinity
    or a NaN.  With [omega = 0] the new [f[d,i]] is the old one, up to the
    sign of a zero, wherever [f_eq[d,i]] is finite, and a NaN where
    [f_eq[d,i]] is an infinity or a NaN. *)
Theorem collision_relaxes_binary64 s :
  wf s →
  ∃ f_eq s',
    equilibrium_distribution s = Some (f_eq, s)
    ∧ collision s = Some (tt, s')
    ∧ (∀ d i : nat, (d < 3)%nat → (i < nx s)%nat →
         ∃ x e, at2 (f s) d i = Some x ∧ at2 f_eq d i = Some e
           ∧ at2 (f s') d i = Some ((1 - omega s) * x + omega s * e))
    ∧ (omega s = 1 →
       ∀ (d i : nat) x e y,
         at2 (f s) d i = Some x → at2 f_eq d i = Some e → at2 (f s') d i = Some y →
         (¬ non_finite x → same_value y e) ∧ (non_finite x → y = nan))
    ∧ (omega s = 0 →
       ∀ (d i : nat) x e y,
         at2 (f s) d i = Some x → at2 f_eq d i = Some e → at2 (f s') d i = Some y →
         (¬ non_finite e → same_value y x) ∧ (non_finite e → y = nan)).
Proof.
  intros Hwf.
  destruct (collision_cells_b64 s Hwf) as (f_eq & s' & Heq & Hcol & Hcell & Hdom).
  exists f_eq, s'. split; [exact Heq|]. split; [exact Hcol|]. split; [|split].
  - intros d i Hd Hi. destruct (Hdom d i Hd Hi) as (x & e & Hx & He).
    exists x, e. split; [exact Hx|]. split; [exact He|]. now apply Hcell.
  - intros Hom d i x e y Hx He Hy.
    rewrite (Hcell d i x e Hx He), Hom in Hy. injection Hy as <-.
    apply relax_full_b64.
  - intros Hom d i x e y Hx He Hy.
    rewrite (Hcell d i x e Hx He), Hom in Hy. injection Hy as <-.
    apply relax_none_b64.
Qed.

Lemma macro_computed_b64 s : macro_computed s → macro_consistent_b64 s.
Proof.
  intros Hm i Hi.
  destruct (Hm i Hi) as (x0 & x1 & x2 & r & v & H0 & H1 & H2 & Hr & Hv & Er & Ev).
  exists x0, x1, x2, r, v. repeat (split; [done|]). split; [|exact Ev].
  rewrite Er. apply sum_from_zero.
Qed.

Lemma macro_b64_after_update_and_evolve s :
  wf s →
  (∃ s', update_density_velocity s = Some (tt, s') ∧ macro_consistent_b64 s')
  ∧ ((1 ≤ nt s)%Z → ∃ s', evolve s = Some (tt, s') ∧ macro_consistent_b64 s').
Proof.
  intros Hwf.
  destruct (macro_computed_after_update_and_evolve s Hwf) as [(s1 & Hu1 & Hm1) Hev].
  split.
  - exists s1. split; [exact Hu1 | now apply macro_computed_b64].
  - intros Hnt. destruct (Hev Hnt) as (s2 & He2 & Hm2).
    exists s2. split; [exact He2 | now apply macro_computed_b64].
Qed.
End FloatsCollision.

Lemma macro_computed_exact (s : solver R) : macro_computed s → macro_consistent s.
Proof.
  intros Hm i Hi.
  destruct (Hm i Hi) as (x0 & x1 & x2 & r & v & H0 & H1 & H2 & Hr & Hv & Er & Ev).
  exists x0, x1, x2, r, v. repeat (split; [done|]). split; [|exact Ev].
  rewrite Er. cbn. lra.
Qed.

(** C5 (as amended). The stored macroscopic fields satisfy
    [rho[i] = f[0,i] + f[1,i] + f[2,i]] and
    [u[i] = (f[1,i] - f[2,i]) / rho[i]] at every site in the state that
    [update_density_velocity] returns, and therefore in the state that
    [evolve] returns whenever [nt >= 1]: exactly so in exact arithmetic, and
    in binary64 with the density equal to that sum up to the sign of a zero
    ([np.sum] starts from [0.0]). *)
Theorem macro_fields_after_update :
  (∀ s : solver R,
     wf s →
     (∃ s', update_density_velocity s = Some (tt, s') ∧ macro_consistent s')
     ∧ ((1 ≤ nt s)%Z → ∃ s', evolve s = Some (tt, s') ∧ macro_consistent s'))
  ∧ (∀ (np_exp : float → float) (s : solver float),
       @wf float (float_scalar np_exp) s →
       (∃ s', @update_density_velocity float (float_scalar np_exp) s = Some (tt, s')
              ∧ macro_consistent_b64 s')
       ∧ ((1 ≤ nt s)%Z →
          ∃ s', @evolve float (float_scalar np_exp) s = Some (tt, s')
                ∧ macro_consistent_b64 s')).
Proof.
  split.
  - intros s Hwf.
    destruct (macro_computed_after_update_and_evolve s Hwf) as [(s1 & Hu1 & Hm1) Hev].
    split.
    + exists s1. split; [exact Hu1 | now apply macro_computed_exact].
    + intros Hnt. destruct (Hev Hnt) as (s2 & He2 & Hm2).
      exists s2. split; [exact He2 | now apply macro_computed_exact].
  - intros np_exp s Hwf. exact (macro_b64_after_update_and_evolve np_exp s Hwf).
Qed.

(** C5 (as amended), at a concrete state over the reals and at a freshly
    constructed binary64 solver. *)
Lemma macro_fields_after_update_demo :
  (wf demo
   ∧ (∃ s', update_density_velocity demo = Some (tt, s') ∧ macro_consistent s')
   ∧ ((1 ≤ nt demo)%Z → ∃ s', evolve demo = Some (tt, s') ∧ macro_consistent s'))
  ∧ (wf fresh2
     ∧ (∃ s', update_density_velocity fresh2 = Some (tt, s') ∧ macro_consistent_b64 s')
     ∧ ((1 ≤ nt fresh2)%Z → ∃ s', evolve fresh2 = Some (tt, s') ∧ macro_consistent_b64 s')).
Proof.
  assert (Hwf : wf fresh2) by apply init_wf.
  split.
  - split; [exact demo_wf | exact (proj1 macro_fields_after_update demo demo_wf)].
  - split; [exact Hwf | exact (proj2 macro_fields_after_update exp_stub fresh2 Hwf)].
Defined.

(** C6, at a freshly constructed binary64 solver. *)
Lemma collision_relaxes_binary64_fresh :
  wf fresh2
  ∧ ∃ f_eq s',
      equilibrium_distribution fresh2 = Some (f_eq, fresh2)
      ∧ collision fresh2 = Some (tt, s')
      ∧ (∀ d i : nat, d < 3 → i < nx fresh2 →
           ∃ x e, at2 (f fresh2) d i = Some x ∧ at2 f_eq d i = Some e
             ∧ at2 (f s') d i = Some ((1 - omega fresh2) * x + omega fresh2 * e)%float)
      ∧ (omega fresh2 = 1%float →
         ∀ (d i : nat) x e y,
           at2 (f fresh2) d i = Some x → at2 f_eq d i = Some e → at2 (f s') d i = Some y →
           (¬ non_finite x → same_value y e) ∧ (non_finite x → y = nan))
      ∧ (omega fresh2 = 0%float →
         ∀ (d i : nat) x e y,
           at2 (f fresh2) d i = Some x → at2 f_eq d i = Some e → at2 (f s') d i = Some y →
           (¬ non_finite e → same_value y x) ∧ (non_finite e → y = nan)).
Proof.
  assert (Hwf : wf fresh2) by apply init_wf.
  split; [exact Hwf | exact (collision_relaxes_binary64 exp_stub fresh2 Hwf)].
Defined.

(** C6, refuted as stated.  With [omega = 0], the solver that [__init__]
    builds is, after one iteration, at [f = 0] and [u = NaN]; [collision]
    then turns every population into a NaN instead of leaving [f] as it is.
    With [omega = 1] and an infinite [f[0,0]], [collision] leaves a NaN in
    [f[0,0]] where [f_eq[0,0]] is finite. *)
Lemma collision_special_cases_fail_binary64 :
  (steps 1 (new 2 2 0%float) = Some (tt, stalled)
   ∧ omega stalled = 0%float
   ∧ ∃ s', collision stalled = Some (tt, s') ∧ f s' ≠ f stalled)
  ∧ (wf inf_cell ∧ omega inf_cell = 1%float
     ∧ ∃ f_eq s',
         equilibrium_distribution inf_cell = Some (f_eq, inf_cell)
         ∧ collision inf_cell = Some (tt, s')
         ∧ f s' ≠ f_eq).
Proof.
  split.
  - split; [vm_compute; reflexivity|]. split; [reflexivity|].
    eexists. split; [vm_compute; reflexivity|].
    intros E. apply (f_equal (λ m, cell_is_nan m 0 0)) in E.
    vm_compute in E. discriminate E.
  - split; [eapply wf_intro; [cbn; reflexivity | cbn ..]; reflexivity|].
    split; [reflexivity|]. do 2 eexists.
    split; [vm_compute; reflexivity|]. split; [vm_compute; reflexivity|].
    intros E. apply (f_equal (λ m, cell_is_nan m 0 0)) in E.
    vm_compute in E. discriminate E.
Qed.
